(** * frontend/server.js: lifecycle state, chaos endpoints and the /api proxy hooks

    A shallow embedding of the gateway in [src/frontend/server.js]:

    - the three module-level variables [serverHealthy], [serverOverloaded]
      and [overloadInterval] (lines 70-73);
    - the handlers of [/health], [/admin/crash], [/admin/toggle-health],
      [/admin/start-overload], [/admin/stop-overload] and [/admin/status];
    - the timers those handlers register ([setInterval], [setTimeout],
      [clearInterval]) and the callbacks they run;
    - the three hooks handed to [createProxyMiddleware] ([onError],
      [onProxyReq], [onProxyRes]).

    The JavaScript runtime is modelled by explicit state passing: a [World]
    holds the module variables, the timer queue, a millisecond clock, the
    process status and a trace of what the process did (console lines,
    responses, termination calls), newest first.

    Conventions of the model:

    - a callback takes no time, except the busy loop of the stress cycle,
      which moves the clock on by the 500 ms it waits for;
    - the event loop runs the timer that is due first ([next_timer]) and,
      among timers due at the same millisecond, the one registered first; the
      runtime orders timers of one delay by when they were last armed, so it
      may run a timeout before a re-armed interval due at the same
      millisecond.  The invariants are proved for any live timer being run
      ([Fire]), so they do not depend on that choice;
    - timer handles are numbered in the order they are handed out;
    - routing, the middleware in front of the routes (helmet, cors,
      xss-clean, hpp, the JSON body parser), the static files, the start-up
      banner and the start-up connectivity probe (lines 15-68, 237-249) touch
      none of the module variables and are left out.  The timer queue of the
      model therefore holds the timers the handlers register, not the one
      2000 ms timeout of the probe, which only logs. *)

From stdpp Require Import base strings list gmap pretty.
From Stdlib Require Import ZArith Lia Ascii.

Local Open Scope Z_scope.
Local Open Scope string_scope.

(** ** JSON payloads *)

(** Values read from the host process by [/admin/status]. *)
Inductive host_probe :=
| Uptime        (* process.uptime() *)
| MemoryUsage   (* process.memoryUsage() *)
| CpuUsage.     (* process.cpuUsage() *)

(** The values the handlers put in a payload.  [JDate ms] stands for
    [new Date().toISOString()] taken when the clock reads [ms]. *)
Inductive json :=
| JUndefined
| JBool (b : bool)
| JNum (n : Z)
| JStr (s : string)
| JDate (ms : Z)
| JHost (p : host_probe).

(** An object literal: its fields in source order. *)
Definition obj := list (string * json).

(** [o.k], [None] when the object has no such field. *)
Fixpoint field (k : string) (o : obj) : option json :=
  match o with
  | [] => None
  | (k', v) :: o' => if String.eqb k k' then Some v else field k o'
  end.

(** The field names of an object, in order. *)
Definition keys (o : obj) : list string := fst <$> o.

(** What [res.status(c).json(o)] sends; [res.json(o)] alone sends status 200. *)
Record response := { status : Z; body : obj }.

Definition res_json (o : obj) : response := {| status := 200; body := o |}.
Definition res_status_json (c : Z) (o : obj) : response := {| status := c; body := o |}.

(** ** The messages of the /api proxy *)

(** The inbound request as the hooks read it: [req.method], [req.path] and
    [req.ip]. *)
Record Req := { method : string; path : string; ip : string }.

(** A transport error: [err.message] and [err.code] (absent on some errors). *)
Record Err := { message : string; code : option string }.

Definition lower_ascii (c : ascii) : ascii :=
  let n := nat_of_ascii c in
  if ((65 <=? n) && (n <=? 90))%nat then ascii_of_nat (n + 32) else c.

(** Header names are compared without regard to case by [setHeader] and
    [getHeader]. *)
Fixpoint lower (s : string) : string :=
  match s with
  | EmptyString => EmptyString
  | String c s' => String (lower_ascii c) (lower s')
  end.

(** The outbound request to the backend ([http.ClientRequest]): its header
    table is keyed by the lower-cased name. *)
Record ProxyReq := {
  preq_method : string;
  preq_path : string;
  preq_headers : gmap string string
}.

Definition setHeader (name value : string) (p : ProxyReq) : ProxyReq :=
  {| preq_method := preq_method p; preq_path := preq_path p;
     preq_headers := <[lower name := value]> (preq_headers p) |}.

Definition getHeader (name : string) (p : ProxyReq) : option string :=
  preq_headers p !! lower name.

(** A plain object with string values, as [proxyRes.headers] is: its
    properties in insertion order, names compared exactly. *)
Definition props := list (string * string).

(** [o[k]], [None] when the object has no such property. *)
Fixpoint obj_get (k : string) (o : props) : option string :=
  match o with
  | [] => None
  | (k', v) :: o' => if String.eqb k k' then Some v else obj_get k o'
  end.

(** [o[k] = v]: a property the object has keeps its place, a new one goes
    last. *)
Fixpoint obj_set (k v : string) (o : props) : props :=
  match o with
  | [] => [(k, v)]
  | (k', v') :: o' =>
      if String.eqb k k' then (k', v) :: o' else (k', v') :: obj_set k v o'
  end.

(** The backend's response ([http.IncomingMessage]): [proxyRes.statusCode],
    the plain object [proxyRes.headers] and the body it streams. *)
Record ProxyRes := {
  statusCode : Z;
  headers : props;
  payload : string
}.

(** What has been written to the client on the proxy route.  The header
    table of a relayed response is keyed by the lower-cased name, as
    [res.setHeader] keeps it. *)
Inductive written :=
| Nothing
| JsonBody (o : obj)                        (* res.json(o) *)
| Relayed (hs : gmap string string) (bytes : string) (complete : bool).

(** The client-side response object of the proxy route: [res.headersSent],
    the status line and what was written. *)
Record Res := { headersSent : bool; res_status : Z; sent : written }.

Definition fresh_res : Res := {| headersSent := false; res_status := 200; sent := Nothing |}.

(** What happens to an outbound request.  [timeout: 30000] (line 201) is an
    idle timeout on the client connection: when it runs out the runtime
    closes that connection, the middleware drops the outbound request and
    reports no error. *)
Inductive backend_outcome :=
| Responds (p : ProxyRes)                   (* a complete response *)
| Fails (e : Err)                           (* refused, reset, ...: nothing received, and the
                                               middleware reports the error *)
| Breaks (p : ProxyRes) (got : string) (e : Err)
                                            (* head and [got] received, then an error the
                                               middleware reports *)
| TimesOut                                  (* nothing received before the client connection
                                               timed out *)
| Stalls (p : ProxyRes) (got : string).     (* head and [got] received, then the client
                                               connection timed out *)

(** ** Timers, process status and the trace *)

(** The callbacks the source hands to [setInterval] and [setTimeout].  The
    crash countdown closes over its own [countdown] variable, which only that
    callback reads and writes: the variable is kept with the callback. *)
Inductive callback :=
| CrashTick (countdown : Z)  (* lines 104-117, with the current [countdown] *)
| ExitTimer                  (* line 113: process.exit(1) *)
| ThrowTimer                 (* line 114: throw new Error(...) *)
| KillTimer                  (* line 115: process.kill(process.pid, 'SIGKILL') *)
| OverloadTick               (* lines 140-159 *)
| ReleaseWaste.              (* line 156: wasteMemory.length = 0 *)

Record timer := {
  tid : nat;             (* the handle setInterval / setTimeout returned *)
  due : Z;               (* clock value at which it is due *)
  every : option Z;      (* Some period for setInterval, None for setTimeout *)
  cb : callback
}.

Inductive proc_status :=
| Running
| Exited (code : Z)        (* process.exit(code) *)
| Uncaught (msg : string)  (* an exception nobody caught *)
| Killed (sig : string).   (* process.kill(pid, sig) *)

Inductive event :=
| Log (line : string)                    (* console.log, console.error *)
| LogDetails (line : string) (o : obj)   (* console.error(line, {...}) *)
| Sent (r : response)                    (* res.json on an admin or health route *)
| ExitCall (code : Z)
| Thrown (msg : string)
| KillCall (sig : string).

Record World := {
  BACKEND_URL : string;        (* line 13, fixed at start-up *)
  serverHealthy : bool;
  serverOverloaded : bool;
  overloadInterval : option nat;
  timers : list timer;         (* live timers, oldest first *)
  next_id : nat;               (* next timer handle *)
  now : Z;                     (* Date.now(), milliseconds *)
  retained : Z;                (* element arrays held by live wasteMemory arrays *)
  proc : proc_status;
  trace : list (Z * event)     (* newest first, each with the clock value *)
}.

(** [a || b] on strings that may be undefined: the empty string is falsy too. *)
Definition or_default (a : option string) (b : string) : string :=
  match a with
  | Some s => if String.eqb s "" then b else s
  | None => b
  end.

(** The state the process starts in (lines 13 and 71-73), given the value of
    [process.env.BACKEND_API_URL]; the clock starts at [t0]. *)
Definition init_world (backend_api_url : option string) (t0 : Z) : World :=
  {| BACKEND_URL := or_default backend_api_url "http://localhost:8080";
     serverHealthy := true; serverOverloaded := false; overloadInterval := None;
     timers := []; next_id := 0; now := t0; retained := 0; proc := Running;
     trace := [] |}.

(** The three variables the spec calls the lifecycle state. *)
Definition lifecycle (w : World) : bool * bool * option nat :=
  (serverHealthy w, serverOverloaded w, overloadInterval w).

(** *** Field updates *)

Definition set_healthy (b : bool) (w : World) : World :=
  {| BACKEND_URL := BACKEND_URL w; serverHealthy := b; serverOverloaded := serverOverloaded w;
     overloadInterval := overloadInterval w; timers := timers w;
     next_id := next_id w; now := now w; retained := retained w;
     proc := proc w; trace := trace w |}.

Definition set_overloaded (b : bool) (w : World) : World :=
  {| BACKEND_URL := BACKEND_URL w; serverHealthy := serverHealthy w; serverOverloaded := b;
     overloadInterval := overloadInterval w; timers := timers w;
     next_id := next_id w; now := now w; retained := retained w;
     proc := proc w; trace := trace w |}.

Definition set_interval_var (h : option nat) (w : World) : World :=
  {| BACKEND_URL := BACKEND_URL w; serverHealthy := serverHealthy w; serverOverloaded := serverOverloaded w;
     overloadInterval := h; timers := timers w;
     next_id := next_id w; now := now w; retained := retained w;
     proc := proc w; trace := trace w |}.

Definition set_timers (ts : list timer) (w : World) : World :=
  {| BACKEND_URL := BACKEND_URL w; serverHealthy := serverHealthy w; serverOverloaded := serverOverloaded w;
     overloadInterval := overloadInterval w; timers := ts;
     next_id := next_id w; now := now w; retained := retained w;
     proc := proc w; trace := trace w |}.

Definition set_next_id (n : nat) (w : World) : World :=
  {| BACKEND_URL := BACKEND_URL w; serverHealthy := serverHealthy w; serverOverloaded := serverOverloaded w;
     overloadInterval := overloadInterval w; timers := timers w;
     next_id := n; now := now w; retained := retained w;
     proc := proc w; trace := trace w |}.

Definition set_now (t : Z) (w : World) : World :=
  {| BACKEND_URL := BACKEND_URL w; serverHealthy := serverHealthy w; serverOverloaded := serverOverloaded w;
     overloadInterval := overloadInterval w; timers := timers w;
     next_id := next_id w; now := t; retained := retained w;
     proc := proc w; trace := trace w |}.

Definition set_retained (n : Z) (w : World) : World :=
  {| BACKEND_URL := BACKEND_URL w; serverHealthy := serverHealthy w; serverOverloaded := serverOverloaded w;
     overloadInterval := overloadInterval w; timers := timers w;
     next_id := next_id w; now := now w; retained := n;
     proc := proc w; trace := trace w |}.

Definition set_proc (p : proc_status) (w : World) : World :=
  {| BACKEND_URL := BACKEND_URL w; serverHealthy := serverHealthy w; serverOverloaded := serverOverloaded w;
     overloadInterval := overloadInterval w; timers := timers w;
     next_id := next_id w; now := now w; retained := retained w;
     proc := p; trace := trace w |}.

(** Record an event at the current clock value. *)
Definition emit (e : event) (w : World) : World :=
  {| BACKEND_URL := BACKEND_URL w; serverHealthy := serverHealthy w; serverOverloaded := serverOverloaded w;
     overloadInterval := overloadInterval w; timers := timers w;
     next_id := next_id w; now := now w; retained := retained w;
     proc := proc w; trace := (now w, e) :: trace w |}.

(** *** The runtime's timer calls *)

(** [setInterval(cb, ms)] and [setTimeout(cb, ms)]: a fresh handle, first due
    [ms] from now. *)
Definition add_timer (c : callback) (ms : Z) (rep : option Z) (w : World) : nat * World :=
  let t := {| tid := next_id w; due := now w + ms; every := rep; cb := c |} in
  (next_id w, set_next_id (S (next_id w)) (set_timers (timers w ++ [t]) w)).

Definition setInterval (c : callback) (ms : Z) (w : World) : nat * World :=
  add_timer c ms (Some ms) w.

Definition setTimeout (c : callback) (ms : Z) (w : World) : World :=
  snd (add_timer c ms None w).

(** [clearInterval(h)]: the timer with that handle never fires again. *)
Definition clearInterval (h : nat) (w : World) : World :=
  set_timers (filter (fun t => tid t ≠ h) (timers w)) w.

(** The timer with handle [h], if it is live. *)
Definition find_timer (h : nat) (ts : list timer) : option timer :=
  find (fun t => bool_decide (tid t = h)) ts.

Definition at_handle (h : nat) (f : timer → timer) (t : timer) : timer :=
  if decide (tid t = h) then f t else t.

(** Apply [f] to the live timer with handle [h]. *)
Definition update_timer (h : nat) (f : timer → timer) (w : World) : World :=
  set_timers (at_handle h f <$> timers w) w.

Definition with_cb (c : callback) (t : timer) : timer :=
  {| tid := tid t; due := due t; every := every t; cb := c |}.

Definition with_due (d : Z) (t : timer) : timer :=
  {| tid := tid t; due := d; every := every t; cb := cb t |}.

(** *** Ways the process ends *)

Definition process_exit (c : Z) (w : World) : World :=
  set_proc (Exited c) (emit (ExitCall c) w).

Definition throw_uncaught (msg : string) (w : World) : World :=
  set_proc (Uncaught msg) (emit (Thrown msg) w).

Definition process_kill (sig : string) (w : World) : World :=
  set_proc (Killed sig) (emit (KillCall sig) w).

(** ** The health and admin handlers *)

(** [app.get('/health')], lines 76-92. *)
Definition health (w : World) : World * response :=
  if negb (serverHealthy w) then
    let r := res_status_json 503
               [("status", JStr "unhealthy");
                ("timestamp", JDate (now w));
                ("service", JStr "frontend")] in
    (emit (Sent r) w, r)
  else
    let r := res_status_json 200
               [("status", JStr (if serverOverloaded w then "degraded" else "healthy"));
                ("timestamp", JDate (now w));
                ("service", JStr "frontend");
                ("overloaded", JBool (serverOverloaded w))] in
    (emit (Sent r) w, r).

(** [app.post('/admin/crash')], lines 95-103 and 117: the part that runs while
    the request is handled. *)
Definition crash (w : World) : World * response :=
  let w1 := emit (Log "💥 CRASH ENDPOINT CALLED - Container will terminate in 3 seconds") w in
  let r := res_json
             [("message", JStr "Frontend container crash initiated");
              ("countdown", JNum 3);
              ("timestamp", JDate (now w1))] in
  let w2 := emit (Sent r) w1 in
  let '(_, w3) := setInterval (CrashTick 3) 1000 w2 in
  (w3, r).

(** The line the countdown logs, line 106. *)
Definition tick_line (countdown : Z) : string :=
  "💥 Container crashing in " +:+ pretty countdown +:+ " second"
  +:+ (if decide (countdown ≠ 1) then "s" else "") +:+ "...".

(** The interval callback of the crash handler, lines 105-116, run for the
    interval with handle [crashInterval] whose [countdown] reads [c]. *)
Definition crash_tick (crashInterval : nat) (c : Z) (w : World) : World :=
  let countdown := c - 1 in
  let w1 := update_timer crashInterval (with_cb (CrashTick countdown)) w in
  let w2 := emit (Log (tick_line countdown)) w1 in
  if decide (countdown ≤ 0)%Z then
    let w3 := clearInterval crashInterval w2 in
    let w4 := emit (Log "💥 FRONTEND CONTAINER CRASH - Forcing exit") w3 in
    let w5 := setTimeout ExitTimer 100 w4 in
    let w6 := setTimeout ThrowTimer 200 w5 in
    setTimeout KillTimer 300 w6
  else w2.

(** [app.post('/admin/toggle-health')], lines 120-128. *)
Definition toggle_health (w : World) : World * response :=
  let w1 := set_healthy (negb (serverHealthy w)) w in
  let w2 := emit (Log ("🏥 Frontend health toggled: "
                       +:+ (if serverHealthy w1 then "HEALTHY" else "UNHEALTHY"))) w1 in
  let r := res_json
             [("message", JStr ("Frontend health "
                                +:+ (if serverHealthy w2 then "enabled" else "disabled")));
              ("healthy", JBool (serverHealthy w2));
              ("timestamp", JDate (now w2))] in
  (emit (Sent r) w2, r).

(** [app.post('/admin/start-overload')], lines 130-166: the part that runs
    while the request is handled.  A timer handle is an object, so
    [if (overloadInterval)] tests for non-null. *)
Definition start_overload (w : World) : World * response :=
  match overloadInterval w with
  | Some _ =>
      let r := res_json
                 [("message", JStr "Overload already running");
                  ("overloaded", JBool true)] in
      (emit (Sent r) w, r)
  | None =>
      let w1 := set_overloaded true w in
      let w2 := emit (Log "🔥 STARTING FRONTEND SERVER OVERLOAD") w1 in
      let '(h, w3) := setInterval OverloadTick 100 w2 in
      let w4 := set_interval_var (Some h) w3 in
      let r := res_json
                 [("message", JStr "Frontend server overload started - High CPU/Memory usage");
                  ("overloaded", JBool true);
                  ("timestamp", JDate (now w4))] in
      (emit (Sent r) w4, r)
  end.

(** The interval callback of start-overload, lines 141-158.  The busy loop
    returns once [Date.now() - start] reaches 500: the clock moves on by 500.
    Then 100000 element arrays are pushed and released 200 ms later. *)
Definition overload_tick (w : World) : World :=
  let start := now w in
  let w1 := set_now (start + 500) w in
  let w2 := set_retained (retained w1 + 100000) w1 in
  let w3 := setTimeout ReleaseWaste 200 w2 in
  emit (Log "🔥 CPU/Memory overload cycle completed") w3.

(** [app.post('/admin/stop-overload')], lines 168-183. *)
Definition stop_overload (w : World) : World * response :=
  match overloadInterval w with
  | Some h =>
      let w1 := clearInterval h w in
      let w2 := set_interval_var None w1 in
      let w3 := set_overloaded false w2 in
      let w4 := emit (Log "✅ Frontend server overload stopped") w3 in
      let r := res_json
                 [("message", JStr "Frontend server overload stopped");
                  ("overloaded", JBool false);
                  ("timestamp", JDate (now w4))] in
      (emit (Sent r) w4, r)
  | None =>
      let r := res_json
                 [("message", JStr "No overload running");
                  ("overloaded", JBool false)] in
      (emit (Sent r) w, r)
  end.

(** [app.get('/admin/status')], lines 186-195. *)
Definition admin_status (w : World) : World * response :=
  let r := res_json
             [("healthy", JBool (serverHealthy w));
              ("overloaded", JBool (serverOverloaded w));
              ("timestamp", JDate (now w));
              ("uptime", JHost Uptime);
              ("memory", JHost MemoryUsage);
              ("cpu", JHost CpuUsage)] in
  (emit (Sent r) w, r).

(** ** The hooks of the /api proxy, lines 198-235 *)

Definition code_json (e : Err) : json :=
  match code e with Some c => JStr c | None => JUndefined end.

(** [onError], lines 206-221. *)
Definition onError (err : Err) (rq : Req) (res : Res) (w : World) : World * Res :=
  let w1 := emit (Log ("❌ Proxy Error: " +:+ message err)) w in
  let w2 := emit (LogDetails "❌ Proxy Error Details:"
                    [("code", code_json err);
                     ("target", JStr (BACKEND_URL w));
                     ("path", JStr (path rq))]) w1 in
  if negb (headersSent res) then
    (w2, {| headersSent := true; res_status := 500;
            sent := JsonBody
                      [("error", JStr "Backend service unavailable");
                       ("message", JStr "Cannot connect to backend server");
                       ("target", JStr (BACKEND_URL w));
                       ("path", JStr (path rq))] |})
  else (w2, res).

(** [onProxyReq], lines 222-227. *)
Definition onProxyReq (proxyReq : ProxyReq) (rq : Req) (w : World) : World * ProxyReq :=
  let p1 := setHeader "X-Forwarded-Proto" "http" proxyReq in
  let p2 := setHeader "X-Real-IP" (ip rq) p1 in
  (emit (Log ("🔄 Proxying: " +:+ method rq +:+ " " +:+ path rq +:+ " -> "
              +:+ BACKEND_URL w +:+ path rq)) w, p2).

(** [onProxyRes], lines 228-234: three assignments to the plain object
    [proxyRes.headers]. *)
Definition onProxyRes (proxyRes : ProxyRes) (rq : Req) (w : World) : World * ProxyRes :=
  let h1 := obj_set "X-Content-Type-Options" "nosniff" (headers proxyRes) in
  let h2 := obj_set "X-Frame-Options" "DENY" h1 in
  let h3 := obj_set "X-XSS-Protection" "1; mode=block" h2 in
  (emit (Log ("✅ Proxy Response: " +:+ pretty (statusCode proxyRes) +:+ " "
              +:+ method rq +:+ " " +:+ path rq)) w,
   {| statusCode := statusCode proxyRes; headers := h3; payload := payload proxyRes |}).

(** The middleware copies [proxyRes.headers] to the client response with
    [res.setHeader], property by property in insertion order: names are
    case-insensitive there, so a later property replaces an earlier one of
    the same name in other letter case. *)
Definition write_headers (o : props) : gmap string string :=
  foldl (fun hs kv => <[lower (fst kv) := snd kv]> hs) ∅ o.

(** The middleware hands the backend's status code, the headers and the bytes
    received so far to the client.  Headers the middleware in front of the
    route or the runtime set on the response are not part of the table, and
    neither is what the proxy does to the connection and transfer-encoding
    headers ([hop_by_hop]) for the connection at hand. *)
Definition relay (p : ProxyRes) (bytes : string) (complete : bool) : Res :=
  {| headersSent := true; res_status := statusCode p;
     sent := Relayed (write_headers (headers p)) bytes complete |}.

(** One pass of a request through the proxy route, in the order the
    middleware calls the hooks: [onProxyReq] on the outbound request it
    [prepared], then either [onProxyRes] and the relay, or [onError], or, when
    the client connection times out, neither: what was written stays as it
    is and the connection is closed.  The backend is a parameter; there is
    one attempt. *)
Definition forward (rq : Req) (prepared : ProxyReq)
    (backend : ProxyReq → backend_outcome) (w : World) : World * (ProxyReq * Res) :=
  let '(w1, out) := onProxyReq prepared rq w in
  match backend out with
  | Responds p =>
      let '(w2, p') := onProxyRes p rq w1 in
      (w2, (out, relay p' (payload p') true))
  | Fails e =>
      let '(w2, res) := onError e rq fresh_res w1 in
      (w2, (out, res))
  | Breaks p got e =>
      let '(w2, p') := onProxyRes p rq w1 in
      let '(w3, res) := onError e rq (relay p' got false) w2 in
      (w3, (out, res))
  | TimesOut => (w1, (out, fresh_res))
  | Stalls p got =>
      let '(w2, p') := onProxyRes p rq w1 in
      (w2, (out, relay p' got false))
  end.

(** ** Timer callbacks and the event loop *)

Definition run_callback (t : timer) (w : World) : World :=
  match cb t with
  | CrashTick c => crash_tick (tid t) c w
  | ExitTimer => process_exit 1 w
  | ThrowTimer => throw_uncaught "Forced container crash" w
  | KillTimer => process_kill "SIGKILL" w
  | OverloadTick => overload_tick w
  | ReleaseWaste => set_retained (retained w - 100000) w
  end.

(** The runtime runs a due timer: the clock has reached its due time; a
    timeout leaves the queue before its callback runs, an interval that the
    callback did not clear is due again one period after the callback
    started. *)
Definition fire (t : timer) (w : World) : World :=
  let start := Z.max (now w) (due t) in
  let w0 := set_now start w in
  match every t with
  | None => run_callback t (clearInterval (tid t) w0)
  | Some period => update_timer (tid t) (with_due (start + period)) (run_callback t w0)
  end.

(** The timer the loop runs next: the earliest due, the oldest among equals. *)
Fixpoint next_timer (ts : list timer) : option timer :=
  match ts with
  | [] => None
  | t :: ts' =>
      match next_timer ts' with
      | Some u => if (due u <? due t)%Z then Some u else Some t
      | None => Some t
      end
  end.

(** ** What can happen to the process *)

Inductive endpoint :=
| Health | Crash | ToggleHealth | StartOverload | StopOverload | Status.

Definition handle (e : endpoint) (w : World) : World * response :=
  match e with
  | Health => health w
  | Crash => crash w
  | ToggleHealth => toggle_health w
  | StartOverload => start_overload w
  | StopOverload => stop_overload w
  | Status => admin_status w
  end.

(** The signals the process listens for, lines 252-260. *)
Inductive signal := SIGTERM | SIGINT.

Definition on_signal (s : signal) (w : World) : World :=
  let line := match s with
              | SIGTERM => "🛑 Received SIGTERM, shutting down gracefully"
              | SIGINT => "🛑 Received SIGINT, shutting down gracefully"
              end in
  process_exit 0 (emit (Log line) w).

Inductive action :=
| Call (e : endpoint)                      (* a request to a health or admin route *)
| Forward (rq : Req) (prepared : ProxyReq) (backend : ProxyReq → backend_outcome)
                                           (* a request to /api *)
| Fire (h : nat)                           (* the runtime runs the live timer [h] *)
| Elapse (ms : N)                          (* time passes *)
| Deliver (s : signal).                    (* the process receives a signal *)

(** A process that has ended does nothing more. *)
Definition step (a : action) (w : World) : World :=
  match proc w with
  | Running =>
      match a with
      | Call e => fst (handle e w)
      | Forward rq prepared backend => fst (forward rq prepared backend w)
      | Fire h =>
          match find_timer h (timers w) with
          | Some t => fire t w
          | None => w
          end
      | Elapse ms => set_now (now w + Z.of_N ms) w
      | Deliver s => on_signal s w
      end
  | _ => w
  end.

Definition run (acts : list action) (w : World) : World :=
  foldl (fun w a => step a w) w acts.

(** One turn of the event loop with no request pending: the next timer runs. *)
Definition loop_step (w : World) : World :=
  match proc w, next_timer (timers w) with
  | Running, Some t => fire t w
  | _, _ => w
  end.

Fixpoint run_loop (n : nat) (w : World) : World :=
  match n with
  | O => w
  | S n' => run_loop n' (loop_step w)
  end.

(** ** Observations used in the statements *)

Definition is_toggle (a : action) : bool :=
  match a with Call ToggleHealth => true | _ => false end.

(** How many toggle-health requests a run holds. *)
Definition toggles (acts : list action) : nat :=
  length (filter (fun a => is_toggle a = true) acts).

Definition is_stress (t : timer) : bool :=
  match cb t with OverloadTick => true | _ => false end.

(** How many stress intervals are live. *)
Definition stress_timers (w : World) : nat :=
  length (filter (fun t => is_stress t = true) (timers w)).

(** [serverOverloaded] is true exactly when [overloadInterval] is non-null. *)
Definition handle_invariant (w : World) : Prop :=
  serverOverloaded w = bool_decide (overloadInterval w ≠ None).

Definition is_cycle_log (e : event) : bool :=
  match e with
  | Log s => String.eqb s "🔥 CPU/Memory overload cycle completed"
  | _ => false
  end.

(** How many stress cycles the trace shows as completed. *)
Definition cycles_completed (w : World) : nat :=
  length (filter (fun e => is_cycle_log (snd e) = true) (trace w)).

(** ** Well-formed timer queues *)

(** The live stress intervals. *)
Definition stress (ts : list timer) : list timer :=
  filter (fun t => is_stress t = true) ts.

(** How each callback is registered in the source: the crash countdown every
    1000 ms with [countdown] between 1 and 3 while it is live, the stress
    cycle every 100 ms, everything else as a timeout. *)
Definition registered_ok (c : callback) (rep : option Z) : Prop :=
  match c with
  | CrashTick n => rep = Some 1000 ∧ (1 ≤ n ≤ 3)%Z
  | OverloadTick => rep = Some 100
  | _ => rep = None
  end.

Definition timer_ok (t : timer) : Prop := registered_ok (cb t) (every t).

(** Handles are distinct and below the next handle, every timer is registered
    as the source registers it, and the live stress intervals are exactly the
    one [overloadInterval] holds, if any. *)
Definition wf_on (ts : list timer) (nid : nat) (hv : option nat) : Prop :=
  NoDup (tid <$> ts) ∧
  Forall (fun t => (tid t < nid)%nat) ts ∧
  Forall timer_ok ts ∧
  tid <$> stress ts = option_list hv.

Definition wf (w : World) : Prop :=
  wf_on (timers w) (next_id w) (overloadInterval w).

(** The three timeouts the last countdown tick registers at clock value
    [start], the first with handle [nid] (lines 113-115). *)
Definition escalation (nid : nat) (start : Z) : list timer :=
  [ {| tid := nid; due := start + 100; every := None; cb := ExitTimer |};
    {| tid := S nid; due := start + 200; every := None; cb := ThrowTimer |};
    {| tid := S (S nid); due := start + 300; every := None; cb := KillTimer |} ].

(** The countdown interval as the crash handler registers it at clock value
    [t], with handle [h]. *)
Definition countdown_timer (h : nat) (t : Z) : timer :=
  {| tid := h; due := t + 1000; every := Some 1000; cb := CrashTick 3 |}.

(** The acknowledgement of the crash handler at clock value [t]. *)
Definition crash_ack (t : Z) : response :=
  res_json [("message", JStr "Frontend container crash initiated");
            ("countdown", JNum 3);
            ("timestamp", JDate t)].

(** *** Measures for the termination of the countdown *)

(** How many callbacks of the crash handler are still to run on account of a
    timer: the remaining ticks and the three timeouts for a countdown, one
    for a termination timeout. *)
Definition pot (t : timer) : nat :=
  match cb t with
  | CrashTick c => 3 + Z.to_nat c
  | ExitTimer | ThrowTimer | KillTimer => 1
  | _ => 0
  end.

Definition pending (ts : list timer) : nat := sum_list_with pot ts.

(** A bound on how many callbacks of the stress cycle a timer can still
    cause at or before clock value [D]. *)
Definition weight (D : Z) (t : timer) : nat :=
  match cb t with
  | OverloadTick =>
      if (due t <=? D)%Z then 2 * (Z.to_nat ((D - due t) / 100) + 1) else 0
  | ReleaseWaste => if (due t <=? D)%Z then 1 else 0
  | _ => 0
  end.

Definition backlog (D : Z) (ts : list timer) : nat := sum_list_with (weight D) ts.

(** The ways the crash handler's timeouts end the process. *)
Definition ended_by_crash (p : proc_status) : Prop :=
  p = Exited 1 ∨ p = Uncaught "Forced container crash" ∨ p = Killed "SIGKILL".

(** Response headers as the runtime hands them over in [proxyRes.headers]:
    names in lower case, each once. *)
Definition as_received (o : props) : Prop :=
  Forall (fun kv => lower (fst kv) = fst kv) o ∧ NoDup (fst <$> o).

(** The headers the middleware and the runtime settle for each connection
    by themselves, whatever the backend sent. *)
Definition hop_by_hop : list string := ["connection"; "transfer-encoding"].

(** The three properties [onProxyRes] assigns, with their values. *)
Definition hardening_props : props :=
  [("X-Content-Type-Options", "nosniff");
   ("X-Frame-Options", "DENY");
   ("X-XSS-Protection", "1; mode=block")].

(** The header names [onProxyRes] assigns. *)
Definition hardening : list string :=
  ["X-Content-Type-Options"; "X-Frame-Options"; "X-XSS-Protection"].

(** The 500 answer of [onError] for a request path and a backend address. *)
Definition unavailable (target req_path : string) : Res :=
  {| headersSent := true; res_status := 500;
     sent := JsonBody
               [("error", JStr "Backend service unavailable");
                ("message", JStr "Cannot connect to backend server");
                ("target", JStr target);
                ("path", JStr req_path)] |}.

(** ** Observations on the rest of the file *)

Definition is_release (t : timer) : bool :=
  match cb t with ReleaseWaste => true | _ => false end.

(** How many [wasteMemory] arrays are waiting for their release timeout. *)
Definition releases (ts : list timer) : nat :=
  sum_list_with (fun t => if is_release t then 1%nat else 0%nat) ts.

Definition is_crash_call (a : action) : bool :=
  match a with Call Crash => true | _ => false end.

Definition is_signal (a : action) : bool :=
  match a with Deliver _ => true | _ => false end.

(** Whether a run holds a request to /admin/crash, a delivered signal. *)
Definition crash_requested (acts : list action) : bool := existsb is_crash_call acts.
Definition signalled (acts : list action) : bool := existsb is_signal acts.

(** [retained] counts 100000 element arrays for each array awaiting release. *)
Definition memory_accounted (w : World) : Prop :=
  retained w = (100000 * Z.of_nat (releases (timers w)))%Z.

(** The earliest a timer of the crash handler can be due when no crash was
    requested before clock value [B]: a countdown reading [c] has [4 - c]
    seconds behind it, a termination timeout the three seconds and 100 ms. *)
Definition not_before (B : Z) (t : timer) : Prop :=
  match cb t with
  | CrashTick c => (B + 1000 * (4 - c) ≤ due t)%Z
  | ExitTimer | ThrowTimer | KillTimer => (B + 3100 ≤ due t)%Z
  | _ => True
  end.

(** No crash was requested before [B], as far as clock, queue and process
    status show. *)
Definition crash_since (B : Z) (w : World) : Prop :=
  (B ≤ now w)%Z ∧ Forall (not_before B) (timers w) ∧
  (ended_by_crash (proc w) → (B + 3100 ≤ now w)%Z).

(** * Properties *)

Local Open Scope list_scope.

(** ** The definitions on concrete inputs *)

Example health_initially :
  snd (health (init_world None 0))
  = {| status := 200;
       body := [("status", JStr "healthy"); ("timestamp", JDate 0);
                ("service", JStr "frontend"); ("overloaded", JBool false)] |}.
Proof. reflexivity. Qed.

Example health_after_toggle :
  status (snd (health (run [Call ToggleHealth] (init_world None 0)))) = 503.
Proof. reflexivity. Qed.

Example backend_url_default :
  BACKEND_URL (init_world None 0) = "http://localhost:8080" ∧
  BACKEND_URL (init_world (Some "") 0) = "http://localhost:8080" ∧
  BACKEND_URL (init_world (Some "http://backend:8080") 0) = "http://backend:8080".
Proof. repeat split. Qed.

Example tick_lines :
  tick_line 2 = "💥 Container crashing in 2 seconds..." ∧
  tick_line 1 = "💥 Container crashing in 1 second..." ∧
  tick_line 0 = "💥 Container crashing in 0 seconds...".
Proof. repeat split. Qed.

Example lower_header_name : lower "X-Real-IP" = "x-real-ip".
Proof. reflexivity. Qed.

Example stop_clears_the_cycle :
  let w := run [Call StartOverload; Fire 0; Call StopOverload] (init_world None 0) in
  lifecycle w = (true, false, None) ∧ stress_timers w = 0%nat ∧ now w = 600.
Proof. repeat split. Qed.

Example proxied_error_answer :
  snd (snd (forward {| method := "GET"; path := "/api/movies"; ip := "10.0.0.7" |}
              {| preq_method := "GET"; preq_path := "/api/movies"; preq_headers := ∅ |}
              (λ _, Fails {| message := "connect ECONNREFUSED"; code := Some "ECONNREFUSED" |})
              (init_world None 0)))
  = unavailable "http://localhost:8080" "/api/movies".
Proof. reflexivity. Qed.

(** ** What each piece leaves alone *)

Lemma fire_lifecycle (t : timer) (w : World) : lifecycle (fire t w) = lifecycle w.
Proof.
  unfold fire, run_callback.
  destruct (every t), (cb t); try reflexivity;
    unfold crash_tick; case_decide; reflexivity.
Qed.

Lemma forward_lifecycle rq prepared backend (w : World) :
  lifecycle (fst (forward rq prepared backend w)) = lifecycle w.
Proof.
  unfold forward; simpl.
  destruct (backend _); reflexivity.
Qed.

Lemma step_dead (a : action) (w : World) : proc w ≠ Running → step a w = w.
Proof. unfold step. destruct (proc w); [congruence | reflexivity ..]. Qed.

Lemma run_dead (acts : list action) (w : World) : proc w ≠ Running → run acts w = w.
Proof.
  revert w. induction acts as [|a acts IH]; intros w Hd; [reflexivity|].
  simpl. rewrite step_dead by exact Hd. apply IH, Hd.
Qed.

Lemma run_cons (a : action) (acts : list action) (w : World) :
  run (a :: acts) w = run acts (step a w).
Proof. reflexivity. Qed.

Lemma run_snoc (acts : list action) (a : action) (w : World) :
  run (acts ++ [a]) w = step a (run acts w).
Proof. unfold run. rewrite foldl_app. reflexivity. Qed.

(** Running at the end of a run means running all along. *)
Lemma run_alive (a : action) (acts : list action) (w : World) :
  proc (run (a :: acts) w) = Running → proc (step a w) = Running ∧ proc w = Running.
Proof.
  rewrite run_cons. intros H.
  assert (H1 : proc (step a w) = Running).
  { destruct (proc (step a w)) eqn:E; [reflexivity | ..];
      rewrite run_dead in H by congruence; congruence. }
  split; [exact H1|].
  destruct (proc w) eqn:E; [reflexivity | ..];
    rewrite step_dead in H1 by congruence; congruence.
Qed.

Lemma step_healthy (a : action) (w : World) :
  proc w = Running →
  serverHealthy (step a w) = xorb (serverHealthy w) (is_toggle a).
Proof.
  intros Hr. unfold step. rewrite Hr.
  assert (Hx : ∀ b, b = xorb b false) by (intros []; reflexivity).
  destruct a as [e | rq p be | h | ms | sg]; simpl.
  - destruct e; simpl; try apply Hx.
    + unfold health. destruct (negb _); apply Hx.
    + destruct (serverHealthy w); reflexivity.
    + unfold start_overload. destruct (overloadInterval w); apply Hx.
    + unfold stop_overload. destruct (overloadInterval w); apply Hx.
  - pose proof (forward_lifecycle rq p be w) as Hl.
    unfold lifecycle in Hl. injection Hl as -> _ _. apply Hx.
  - destruct (find_timer h (timers w)) as [t|]; [|apply Hx].
    pose proof (fire_lifecycle t w) as Hl.
    unfold lifecycle in Hl. injection Hl as -> _ _. apply Hx.
  - apply Hx.
  - apply Hx.
Qed.

Lemma toggles_cons (a : action) (acts : list action) :
  toggles (a :: acts) = ((if is_toggle a then 1 else 0) + toggles acts)%nat.
Proof.
  unfold toggles. rewrite filter_cons.
  destruct (is_toggle a); case_decide; simpl; congruence.
Qed.

Lemma run_healthy (acts : list action) (w : World) :
  proc (run acts w) = Running →
  serverHealthy (run acts w) = xorb (serverHealthy w) (Nat.odd (toggles acts)).
Proof.
  revert w. induction acts as [|a acts IH]; intros w Hr.
  - simpl. destruct (serverHealthy w); reflexivity.
  - destruct (run_alive _ _ _ Hr) as [Hs Hw].
    rewrite run_cons in *. rewrite (IH _ Hr), (step_healthy _ _ Hw), toggles_cons.
    destruct (is_toggle a); simpl.
    + rewrite Nat.odd_succ, <- Nat.negb_odd.
      destruct (serverHealthy w), (Nat.odd (toggles acts)); reflexivity.
    + destruct (serverHealthy w); reflexivity.
Qed.

(** ** C1: the health mapping *)

(** C1.  [GET /health] checks in order: not healthy gives 503 with status
    "unhealthy"; otherwise overloaded gives 200 with status "degraded";
    otherwise 200 with status "healthy".  Healthy and overloaded is 200
    "degraded", not 503.  The read changes no lifecycle variable. *)
Theorem health_mapping (w : World) :
  let r := snd (health w) in
  (serverHealthy w = false →
     status r = 503 ∧ field "status" (body r) = Some (JStr "unhealthy")) ∧
  (serverHealthy w = true → serverOverloaded w = true →
     status r = 200 ∧ status r ≠ 503 ∧
     field "status" (body r) = Some (JStr "degraded") ∧
     field "overloaded" (body r) = Some (JBool true)) ∧
  (serverHealthy w = true → serverOverloaded w = false →
     status r = 200 ∧ field "status" (body r) = Some (JStr "healthy") ∧
     field "overloaded" (body r) = Some (JBool false)) ∧
  lifecycle (fst (health w)) = lifecycle w.
Proof.
  unfold health.
  destruct (serverHealthy w) eqn:Hh, (serverOverloaded w) eqn:Ho; simpl;
    repeat split; intros; try discriminate; try reflexivity;
    unfold lifecycle; simpl; rewrite ?Hh, ?Ho; reflexivity.
Qed.

(** ** C2: the handle invariant *)

Lemma handle_invariant_lifecycle (w w' : World) :
  lifecycle w' = lifecycle w → handle_invariant w → handle_invariant w'.
Proof.
  unfold lifecycle, handle_invariant. intros Hl H.
  injection Hl as _ -> ->. exact H.
Qed.

Lemma handle_preserves_invariant (e : endpoint) (w : World) :
  handle_invariant w → handle_invariant (fst (handle e w)).
Proof.
  intros H. destruct e; simpl.
  - apply (handle_invariant_lifecycle w); [|exact H]. apply health_mapping.
  - exact H.
  - exact H.
  - unfold start_overload. destruct (overloadInterval w) eqn:E; simpl.
    + unfold handle_invariant in *; simpl. exact H.
    + reflexivity.
  - unfold stop_overload. destruct (overloadInterval w) eqn:E; simpl.
    + reflexivity.
    + unfold handle_invariant in *; simpl. exact H.
  - exact H.
Qed.

Lemma step_preserves_invariant (a : action) (w : World) :
  handle_invariant w → handle_invariant (step a w).
Proof.
  intros H. unfold step. destruct (proc w); try exact H.
  destruct a as [e | rq p be | h | ms | sg].
  - apply handle_preserves_invariant, H.
  - apply (handle_invariant_lifecycle w); [apply forward_lifecycle | exact H].
  - destruct (find_timer h (timers w)) as [t|]; [|exact H].
    apply (handle_invariant_lifecycle w); [apply fire_lifecycle | exact H].
  - exact H.
  - exact H.
Qed.

Lemma run_handle_invariant url t0 (acts : list action) :
  handle_invariant (run acts (init_world url t0)).
Proof.
  induction acts as [|a acts IH] using rev_ind; [reflexivity|].
  rewrite run_snoc. apply step_preserves_invariant, IH.
Qed.

(** C2.  [serverOverloaded] is true exactly when [overloadInterval] is
    non-null: in the initial state, after each operation (every health and
    admin route, a proxied request, a timer callback, time passing) from a
    state where it holds, and hence after every run from the initial state. *)
Theorem handle_invariant_holds :
  (∀ url t0, handle_invariant (init_world url t0)) ∧
  (∀ e w, handle_invariant w → handle_invariant (fst (handle e w))) ∧
  (∀ a w, handle_invariant w → handle_invariant (step a w)) ∧
  (∀ url t0 acts, handle_invariant (run acts (init_world url t0))).
Proof.
  split; [reflexivity|].
  split; [exact handle_preserves_invariant|].
  split; [exact step_preserves_invariant|].
  exact run_handle_invariant.
Qed.

(** ** C3: toggles and parity *)

(** C3.  After any run from the initial state that leaves the process
    running, [GET /health] answers "unhealthy" (503) exactly when the run
    holds an odd number of toggle-health requests; and a toggle-health request
    flips [serverHealthy] and returns the new value. *)
Theorem toggle_parity (url : option string) (t0 : Z) (acts : list action) :
  proc (run acts (init_world url t0)) = Running →
  let w := run acts (init_world url t0) in
  (field "status" (body (snd (health w))) = Some (JStr "unhealthy")
     ↔ Nat.odd (toggles acts) = true) ∧
  (status (snd (health w)) = 503 ↔ Nat.odd (toggles acts) = true) ∧
  serverHealthy (fst (toggle_health w)) = negb (serverHealthy w) ∧
  field "healthy" (body (snd (toggle_health w))) = Some (JBool (negb (serverHealthy w))).
Proof.
  intros Hr w. pose proof (run_healthy _ _ Hr) as Hh. fold w in Hh.
  simpl in Hh.
  split; [|split; [|split; reflexivity]]; unfold health; rewrite Hh;
    destruct (Nat.odd (toggles acts)), (serverOverloaded w); simpl;
    split; intros; try reflexivity; discriminate.
Qed.

(** [toggle_parity] on a run with three toggles among other requests and a
    stress callback. *)
Lemma toggle_parity_witness :
  proc (run [Call ToggleHealth; Call Health; Call StartOverload; Fire 0;
             Call ToggleHealth; Call Status; Call ToggleHealth]
            (init_world None 0)) = Running ∧
  (field "status"
     (body (snd (health (run [Call ToggleHealth; Call Health; Call StartOverload; Fire 0;
                              Call ToggleHealth; Call Status; Call ToggleHealth]
                             (init_world None 0)))))
   = Some (JStr "unhealthy")).
Proof.
  split; [reflexivity|].
  apply (toggle_parity None 0
           [Call ToggleHealth; Call Health; Call StartOverload; Fire 0;
            Call ToggleHealth; Call Status; Call ToggleHealth]);
    reflexivity.
Defined.

(** ** Timer queues stay well formed *)

Section TimerLists.
Implicit Types (ts : list timer) (t s : timer) (h : nat).

Lemma tid_unique ts s t :
  NoDup (tid <$> ts) → s ∈ ts → t ∈ ts → tid s = tid t → s = t.
Proof.
  induction ts as [|x ts IH]; intros Hnd Hs Ht Heq; [inversion Hs|].
  rewrite fmap_cons, NoDup_cons in Hnd. destruct Hnd as [Hx Hnd].
  apply elem_of_cons in Hs, Ht.
  destruct Hs as [->|Hs], Ht as [->|Ht]; [reflexivity | | | apply IH; assumption].
  - exfalso. apply Hx. rewrite Heq. apply list_elem_of_fmap_2, Ht.
  - exfalso. apply Hx. rewrite <- Heq. apply list_elem_of_fmap_2, Hs.
Qed.

Lemma stress_app ts1 ts2 : stress (ts1 ++ ts2) = stress ts1 ++ stress ts2.
Proof. apply filter_app. Qed.

Lemma stress_elem ts t : t ∈ stress ts ↔ is_stress t = true ∧ t ∈ ts.
Proof. unfold stress. apply (list_elem_of_filter (λ x, is_stress x = true)). Qed.

(** Clearing a handle other than the one [overloadInterval] holds removes
    no stress interval. *)
Lemma stress_clear_other ts h :
  (∀ s, s ∈ ts → is_stress s = true → tid s ≠ h) →
  stress (filter (λ t, tid t ≠ h) ts) = stress ts.
Proof.
  induction ts as [|x ts IH]; intros H; [reflexivity|].
  assert (IH' : stress (filter (λ t, tid t ≠ h) ts) = stress ts).
  { apply IH. intros s Hs. apply H. right. exact Hs. }
  unfold stress in *. rewrite !filter_cons.
  destruct (decide (tid x ≠ h)) as [Hx|Hx].
  - rewrite filter_cons. destruct (decide (is_stress x = true)); rewrite IH'; reflexivity.
  - destruct (decide (is_stress x = true)) as [Hsx|]; [|exact IH'].
    exfalso. apply Hx. apply H; [left | exact Hsx].
Qed.

(** Clearing the handle of the only stress interval leaves none. *)
Lemma stress_clear_handle ts h :
  tid <$> stress ts = [h] →
  stress (filter (λ t, tid t ≠ h) ts) = [].
Proof.
  intros H.
  destruct (stress (filter (λ t, tid t ≠ h) ts)) as [|s l] eqn:E; [reflexivity|].
  assert (Hs : s ∈ stress (filter (λ t, tid t ≠ h) ts)) by (rewrite E; left).
  apply stress_elem in Hs. destruct Hs as [Hst Hs].
  apply (list_elem_of_filter (λ x, tid x ≠ h)) in Hs. destruct Hs as [Hne Hs].
  assert (Hin : tid s ∈ tid <$> stress ts).
  { apply list_elem_of_fmap_2, stress_elem. split; assumption. }
  rewrite H in Hin. apply list_elem_of_singleton in Hin. contradiction.
Qed.

Lemma tid_at_handle h f ts :
  (∀ s, tid (f s) = tid s) → tid <$> (at_handle h f <$> ts) = tid <$> ts.
Proof.
  intros Hf. rewrite <- list_fmap_compose. apply list_fmap_ext.
  intros i x _. simpl. unfold at_handle. case_decide; [apply Hf | reflexivity].
Qed.

Lemma stress_at_handle h f ts :
  (∀ s, tid (f s) = tid s) →
  (∀ s, s ∈ ts → tid s = h → is_stress (f s) = is_stress s) →
  tid <$> stress (at_handle h f <$> ts) = tid <$> stress ts.
Proof.
  intros Hf. induction ts as [|x ts IH]; intros H; [reflexivity|].
  assert (IH' : tid <$> stress (at_handle h f <$> ts) = tid <$> stress ts).
  { apply IH. intros s Hs. apply H. right. exact Hs. }
  unfold stress in *. rewrite fmap_cons, !filter_cons.
  assert (Hx : is_stress (at_handle h f x) = is_stress x ∧ tid (at_handle h f x) = tid x).
  { unfold at_handle. case_decide as Hd; [|split; reflexivity].
    split; [apply H; [left | exact Hd] | apply Hf]. }
  destruct Hx as [Hx1 Hx2]. rewrite Hx1.
  destruct (decide (is_stress x = true)); [|exact IH'].
  rewrite !fmap_cons, Hx2, IH'. reflexivity.
Qed.

(** Clearing a handle undoes any rewrite of the timer with that handle. *)
Lemma clear_at_handle h f ts :
  (∀ s, tid (f s) = tid s) →
  filter (λ t, tid t ≠ h) (at_handle h f <$> ts) = filter (λ t, tid t ≠ h) ts.
Proof.
  intros Hf. induction ts as [|x ts IH]; [reflexivity|].
  rewrite fmap_cons, !filter_cons, IH.
  destruct (decide (tid x = h)) as [Hx|Hx].
  - assert (Hy : tid (at_handle h f x) = h).
    { unfold at_handle. rewrite decide_True by exact Hx. rewrite Hf. exact Hx. }
    destruct (decide (tid (at_handle h f x) ≠ h)), (decide (tid x ≠ h));
      try contradiction; reflexivity.
  - assert (Hy : at_handle h f x = x).
    { unfold at_handle. rewrite decide_False by exact Hx. reflexivity. }
    rewrite Hy. reflexivity.
Qed.
End TimerLists.

(** Goals [wf w'] where [w'] has the timers, next handle and
    [overloadInterval] of a world known to be well formed. *)
Ltac wf_same := unfold wf in *; simpl; assumption.

Section WellFormed.
Implicit Types (w : World) (t : timer) (h : nat) (c : callback).

Lemma wf_init url (t0 : Z) : wf (init_world url t0).
Proof.
  unfold wf, wf_on; simpl. repeat split; constructor.
Qed.

(** In a well-formed queue a timer that is no stress interval does not
    carry the handle [overloadInterval] holds. *)
Lemma wf_handle_not w t :
  wf w → t ∈ timers w → is_stress t = false → overloadInterval w ≠ Some (tid t).
Proof.
  intros (Hnd & _ & _ & Hst) Ht Hns Hh. rewrite Hh in Hst. simpl in Hst.
  assert (Hin : tid t ∈ tid <$> stress (timers w)) by (rewrite Hst; left).
  apply list_elem_of_fmap in Hin. destruct Hin as (s & Heq & Hs).
  apply stress_elem in Hs. destruct Hs as [Hss Hs].
  assert (s = t) by (apply (tid_unique (timers w)); auto).
  subst s. congruence.
Qed.

(** The handle [overloadInterval] holds is that of a live stress interval. *)
Lemma wf_handle_live w h :
  wf w → overloadInterval w = Some h →
  ∃ t, t ∈ timers w ∧ tid t = h ∧ cb t = OverloadTick ∧ every t = Some 100.
Proof.
  intros (_ & _ & Hok & Hst) Hh. rewrite Hh in Hst. simpl in Hst.
  assert (Hin : h ∈ tid <$> stress (timers w)) by (rewrite Hst; left).
  apply list_elem_of_fmap in Hin. destruct Hin as (s & Heq & Hs).
  apply stress_elem in Hs. destruct Hs as [Hss Hs].
  exists s. split; [exact Hs|]. split; [congruence|].
  rewrite Forall_forall in Hok. specialize (Hok s Hs).
  unfold timer_ok, is_stress in *. destruct (cb s); try discriminate.
  split; [reflexivity | exact Hok].
Qed.

Lemma wf_stress_count w :
  wf w → stress_timers w = match overloadInterval w with Some _ => 1%nat | None => 0%nat end.
Proof.
  intros (_ & _ & _ & Hst). unfold stress_timers. fold (stress (timers w)).
  rewrite <- (length_fmap tid), Hst. destruct (overloadInterval w); reflexivity.
Qed.

(** Registering a timer that is no stress interval. *)
Lemma wf_add c ms rep w :
  c ≠ OverloadTick → registered_ok c rep → wf w → wf (snd (add_timer c ms rep w)).
Proof.
  intros Hc Hreg (Hnd & Hfr & Hok & Hst). unfold wf, wf_on; simpl.
  split; [|split; [|split]].
  - rewrite fmap_app. apply NoDup_app. split; [exact Hnd|]. split; [|apply NoDup_singleton].
    intros x Hx Hx'. simpl in Hx'. apply list_elem_of_singleton in Hx'. subst x.
    apply list_elem_of_fmap in Hx. destruct Hx as (s & Heq & Hs).
    rewrite Forall_forall in Hfr. specialize (Hfr s Hs). lia.
  - apply Forall_app. split.
    + eapply Forall_impl; [exact Hfr|]. intros; simpl in *; lia.
    + repeat constructor.
  - apply Forall_app. split; [exact Hok|]. repeat constructor. exact Hreg.
  - rewrite stress_app. unfold stress at 2. rewrite filter_cons, decide_False.
    + rewrite app_nil_r. exact Hst.
    + unfold is_stress; simpl. destruct c; congruence.
Qed.

(** Registering the stress interval when [overloadInterval] is null, and
    storing its handle. *)
Lemma wf_add_stress ms w :
  overloadInterval w = None → wf w →
  wf (set_interval_var (Some (next_id w)) (snd (add_timer OverloadTick ms (Some 100) w))).
Proof.
  intros Hn (Hnd & Hfr & Hok & Hst). unfold wf, wf_on; simpl.
  split; [|split; [|split]].
  - rewrite fmap_app. apply NoDup_app. split; [exact Hnd|]. split; [|apply NoDup_singleton].
    intros x Hx Hx'. simpl in Hx'. apply list_elem_of_singleton in Hx'. subst x.
    apply list_elem_of_fmap in Hx. destruct Hx as (s & Heq & Hs).
    rewrite Forall_forall in Hfr. specialize (Hfr s Hs). lia.
  - apply Forall_app. split.
    + eapply Forall_impl; [exact Hfr|]. intros; simpl in *; lia.
    + repeat constructor.
  - apply Forall_app. split; [exact Hok|]. repeat constructor.
  - rewrite stress_app, fmap_app, Hst, Hn. reflexivity.
Qed.

Lemma Forall_cleared (P : timer → Prop) h (ts : list timer) :
  Forall P ts → Forall P (filter (λ t, tid t ≠ h) ts).
Proof.
  rewrite !Forall_forall. intros H x Hx.
  apply (list_elem_of_filter (λ t, tid t ≠ h)) in Hx. apply H, Hx.
Qed.

Lemma NoDup_cleared h (ts : list timer) :
  NoDup (tid <$> ts) → NoDup (tid <$> filter (λ t, tid t ≠ h) ts).
Proof.
  intros Hnd. eapply sublist_NoDup; [exact Hnd|].
  apply fmap_sublist, sublist_filter.
Qed.

(** [clearInterval] on a handle [overloadInterval] does not hold. *)
Lemma wf_clear h w :
  overloadInterval w ≠ Some h → wf w → wf (clearInterval h w).
Proof.
  intros Hh (Hnd & Hfr & Hok & Hst). unfold wf, wf_on; simpl.
  split; [|split; [|split]].
  - apply NoDup_cleared, Hnd.
  - apply Forall_cleared, Hfr.
  - apply Forall_cleared, Hok.
  - rewrite stress_clear_other; [exact Hst|].
    intros s Hs Hss Heq. apply Hh.
    assert (Hin : tid s ∈ tid <$> stress (timers w)).
    { apply list_elem_of_fmap_2, stress_elem. split; assumption. }
    rewrite Hst in Hin. destruct (overloadInterval w); simpl in Hin.
    + apply list_elem_of_singleton in Hin. congruence.
    + inversion Hin.
Qed.

(** [clearInterval(overloadInterval); overloadInterval = null]. *)
Lemma wf_clear_handle h w :
  overloadInterval w = Some h → wf w →
  wf (set_interval_var None (clearInterval h w)).
Proof.
  intros Hh (Hnd & Hfr & Hok & Hst). unfold wf, wf_on; simpl.
  split; [|split; [|split]].
  - apply NoDup_cleared, Hnd.
  - apply Forall_cleared, Hfr.
  - apply Forall_cleared, Hok.
  - rewrite Hh in Hst. rewrite (stress_clear_handle _ _ Hst). reflexivity.
Qed.

(** Rewriting the timer with handle [h] in a way that keeps its handle, its
    registration and whether it is a stress interval. *)
Lemma wf_update h f w :
  (∀ s, tid (f s) = tid s) →
  (∀ s, s ∈ timers w → tid s = h → timer_ok (f s) ∧ is_stress (f s) = is_stress s) →
  wf w → wf (update_timer h f w).
Proof.
  intros Hf Hh (Hnd & Hfr & Hok & Hst). unfold wf, wf_on; simpl.
  split; [|split; [|split]].
  - rewrite tid_at_handle by exact Hf. exact Hnd.
  - rewrite Forall_fmap. rewrite Forall_forall in *. intros x Hx. simpl.
    unfold at_handle. case_decide; [rewrite Hf|]; apply Hfr, Hx.
  - rewrite Forall_fmap. rewrite Forall_forall in *. intros x Hx. simpl.
    unfold at_handle. case_decide; [apply Hh; assumption | apply Hok, Hx].
  - rewrite stress_at_handle; [exact Hst | exact Hf |].
    intros s Hs Hsh. apply Hh; assumption.
Qed.

Lemma wf_with_due h d w : wf w → wf (update_timer h (with_due d) w).
Proof.
  intros Hwf. apply wf_update; [reflexivity | | exact Hwf].
  intros s Hs _. split; [|reflexivity].
  destruct Hwf as (_ & _ & Hok & _). rewrite Forall_forall in Hok. apply (Hok s Hs).
Qed.

Lemma wf_crash_tick h n w t :
  wf w → t ∈ timers w → tid t = h → cb t = CrashTick n → timer_ok t →
  wf (crash_tick h n w).
Proof.
  intros Hwf Ht Hid Hcb Hok. unfold timer_ok, registered_ok in Hok.
  rewrite Hcb in Hok. destruct Hok as [Hev Hn].
  assert (Hns : is_stress t = false) by (unfold is_stress; rewrite Hcb; reflexivity).
  unfold crash_tick. case_decide as Hz.
  - unfold setTimeout. do 3 (apply wf_add; [discriminate | reflexivity |]).
    unfold wf; simpl. rewrite clear_at_handle by reflexivity.
    apply (wf_clear h w); [|exact Hwf].
    rewrite <- Hid. apply wf_handle_not; assumption.
  - apply (wf_update h _ w); [reflexivity | | exact Hwf].
    intros s Hs Hsh.
    assert (s = t) by (destruct Hwf as (Hnd & _); apply (tid_unique (timers w)); congruence).
    subst s. split.
    + unfold timer_ok; simpl. split; [exact Hev | lia].
    + unfold is_stress at 1; simpl. symmetry. exact Hns.
Qed.

Lemma wf_fire w t : wf w → t ∈ timers w → wf (fire t w).
Proof.
  intros Hwf Ht.
  assert (Hok : timer_ok t).
  { destruct Hwf as (_ & _ & Hok & _). rewrite Forall_forall in Hok. apply Hok, Ht. }
  assert (Hclear : is_stress t = false → wf (clearInterval (tid t) w)).
  { intros Hns. apply wf_clear; [|exact Hwf]. apply wf_handle_not; assumption. }
  pose proof Hok as Hok'. unfold timer_ok, registered_ok in Hok'.
  unfold fire, run_callback, is_stress in *.
  destruct (cb t) eqn:Hcb.
  - destruct Hok' as [-> Hn]. apply wf_with_due.
    apply (wf_crash_tick _ _ _ t); auto.
  - rewrite Hok'. apply Hclear. reflexivity.
  - rewrite Hok'. apply Hclear. reflexivity.
  - rewrite Hok'. apply Hclear. reflexivity.
  - rewrite Hok'. apply wf_with_due. unfold overload_tick, setTimeout.
    apply (wf_add ReleaseWaste 200 None); [discriminate | reflexivity | exact Hwf].
  - rewrite Hok'. apply Hclear. reflexivity.
Qed.

Lemma wf_handle_endpoint (e : endpoint) w : wf w → wf (fst (handle e w)).
Proof.
  intros Hwf. destruct e; simpl.
  - unfold health. destruct (negb _); exact Hwf.
  - apply (wf_add (CrashTick 3) 1000 (Some 1000) (emit (Sent _) (emit (Log _) w)));
      [discriminate | split; [reflexivity | lia] | wf_same].
  - exact Hwf.
  - unfold start_overload. destruct (overloadInterval w) eqn:E; [exact Hwf|].
    apply (wf_add_stress 100 (emit (Log "") (set_overloaded true w)) E Hwf).
  - unfold stop_overload. destruct (overloadInterval w) as [h|] eqn:E; [|exact Hwf].
    apply (wf_clear_handle h w E Hwf).
  - exact Hwf.
Qed.

Lemma find_timer_some h (ts : list timer) t :
  find_timer h ts = Some t → t ∈ ts ∧ tid t = h.
Proof.
  unfold find_timer. intros H. apply find_some in H. destruct H as [Hin Hb].
  split; [apply list_elem_of_In, Hin | apply bool_decide_eq_true in Hb; exact Hb].
Qed.

Lemma wf_step (a : action) w : wf w → wf (step a w).
Proof.
  intros Hwf. unfold step. destruct (proc w); try exact Hwf.
  destruct a as [e | rq p be | h | ms | sg].
  - apply wf_handle_endpoint, Hwf.
  - unfold forward; simpl. destruct (be _); exact Hwf.
  - destruct (find_timer h (timers w)) as [t|] eqn:E; [|exact Hwf].
    apply wf_fire; [exact Hwf | apply (find_timer_some h), E].
  - exact Hwf.
  - exact Hwf.
Qed.

Lemma wf_run (acts : list action) w : wf w → wf (run acts w).
Proof.
  revert w. induction acts as [|a acts IH]; intros w Hwf; [exact Hwf|].
  rewrite run_cons. apply IH, wf_step, Hwf.
Qed.

Lemma next_timer_elem (ts : list timer) t : next_timer ts = Some t → t ∈ ts.
Proof.
  revert t. induction ts as [|x ts IH]; intros t H; [discriminate|].
  simpl in H. destruct (next_timer ts) as [u|].
  - destruct (due u <? due x)%Z; injection H as <-; [right; apply IH; reflexivity | left].
  - injection H as <-. left.
Qed.

Lemma wf_loop_step w : wf w → wf (loop_step w).
Proof.
  intros Hwf. unfold loop_step. destruct (proc w); try exact Hwf.
  destruct (next_timer (timers w)) as [t|] eqn:E; [|exact Hwf].
  apply wf_fire; [exact Hwf | apply next_timer_elem, E].
Qed.

Lemma wf_run_loop (n : nat) w : wf w → wf (run_loop n w).
Proof.
  revert w. induction n as [|n IH]; intros w Hwf; [exact Hwf|].
  simpl. apply IH, wf_loop_step, Hwf.
Qed.
End WellFormed.

(** ** C4: start-overload while a cycle is active *)

(** The payload start-overload sends when a cycle is already active. *)
Lemma start_overload_active (w : World) :
  overloadInterval w ≠ None →
  start_overload w
  = (emit (Sent (res_json [("message", JStr "Overload already running");
                           ("overloaded", JBool true)])) w,
     res_json [("message", JStr "Overload already running");
               ("overloaded", JBool true)]).
Proof.
  intros H. unfold start_overload. destruct (overloadInterval w); [reflexivity | contradiction].
Qed.

Lemma start_overload_sets_handle (w : World) :
  overloadInterval (fst (start_overload w)) ≠ None.
Proof.
  unfold start_overload. destruct (overloadInterval w) eqn:E; simpl; congruence.
Qed.

(** C4, as the claim states it, fails: with a cycle active the payload of
    start-overload has the fields [message] and [overloaded] and no field
    [alreadyRunning]. *)
Lemma start_overload_no_alreadyRunning :
  overloadInterval (fst (start_overload (init_world None 0))) = Some 0%nat ∧
  keys (body (snd (start_overload (fst (start_overload (init_world None 0))))))
    = ["message"; "overloaded"] ∧
  field "alreadyRunning"
    (body (snd (start_overload (fst (start_overload (init_world None 0)))))) = None.
Proof. repeat split. Qed.

(** C4, amended.  With a cycle active, start-overload changes no lifecycle
    variable and no timer and answers 200 with
    [{message: "Overload already running", overloaded: true}].  Hence, after
    any run from the initial state, two start-overload requests in a row
    both answer [overloaded: true], the second changes nothing, and exactly
    one stress interval is live after each. *)
Theorem start_overload_idempotent (url : option string) (t0 : Z) (acts : list action) :
  let w := run acts (init_world url t0) in
  let w1 := fst (start_overload w) in
  let r1 := snd (start_overload w) in
  let w2 := fst (start_overload w1) in
  let r2 := snd (start_overload w1) in
  (∀ v, overloadInterval v ≠ None →
        lifecycle (fst (start_overload v)) = lifecycle v ∧
        timers (fst (start_overload v)) = timers v ∧
        snd (start_overload v)
        = res_json [("message", JStr "Overload already running");
                    ("overloaded", JBool true)]) ∧
  status r1 = 200 ∧ field "overloaded" (body r1) = Some (JBool true) ∧
  status r2 = 200 ∧ field "overloaded" (body r2) = Some (JBool true) ∧
  lifecycle w2 = lifecycle w1 ∧ timers w2 = timers w1 ∧
  stress_timers w1 = 1%nat ∧ stress_timers w2 = 1%nat.
Proof.
  intros w w1 r1 w2 r2.
  assert (Hwf : wf w) by (apply wf_run, wf_init).
  assert (Hwf1 : wf w1) by (apply (wf_handle_endpoint StartOverload), Hwf).
  assert (Hwf2 : wf w2) by (apply (wf_handle_endpoint StartOverload), Hwf1).
  assert (H1 : overloadInterval w1 ≠ None) by apply start_overload_sets_handle.
  assert (H2 : overloadInterval w2 ≠ None) by apply start_overload_sets_handle.
  split.
  { intros v Hv. rewrite (start_overload_active v Hv). repeat split. }
  split; [|split].
  { unfold r1, start_overload. destruct (overloadInterval w); reflexivity. }
  { unfold r1, start_overload. destruct (overloadInterval w); reflexivity. }
  assert (Hc1 : stress_timers w1 = 1%nat).
  { rewrite (wf_stress_count w1 Hwf1). destruct (overloadInterval w1); [reflexivity | contradiction]. }
  assert (Hc2 : stress_timers w2 = 1%nat).
  { rewrite (wf_stress_count w2 Hwf2). destruct (overloadInterval w2); [reflexivity | contradiction]. }
  split; [|split; [|split; [|split; [|split]]]]; try assumption;
    unfold r2, w2; rewrite (start_overload_active w1 H1); reflexivity.
Qed.

(** ** C5: stop-overload with nothing running *)

(** C5.  With no cycle active, stop-overload answers 200 with
    [overloaded: false], sends that answer and does nothing else: the
    lifecycle variables, the timers and the process status keep their
    values. *)
Theorem stop_overload_idle (w : World) :
  overloadInterval w = None →
  let w' := fst (stop_overload w) in
  let r := snd (stop_overload w) in
  status r = 200 ∧
  body r = [("message", JStr "No overload running"); ("overloaded", JBool false)] ∧
  field "overloaded" (body r) = Some (JBool false) ∧
  w' = emit (Sent r) w ∧
  lifecycle w' = lifecycle w ∧ timers w' = timers w ∧ proc w' = proc w.
Proof.
  intros H w' r. unfold w', r, stop_overload. rewrite H. simpl.
  repeat split.
Qed.

(** [stop_overload_idle] in the initial state. *)
Lemma stop_overload_idle_witness :
  overloadInterval (init_world None 0) = None ∧
  lifecycle (fst (stop_overload (init_world None 0))) = lifecycle (init_world None 0).
Proof.
  split; [reflexivity|].
  apply (stop_overload_idle (init_world None 0)). reflexivity.
Defined.

(** ** Header objects and the header table of the client response *)

Section Headers.
Implicit Types (o : props) (k v : string).

Lemma obj_get_set_eq k v o : obj_get k (obj_set k v o) = Some v.
Proof.
  induction o as [|[k' v'] o IH]; simpl.
  - rewrite String.eqb_refl. reflexivity.
  - destruct (String.eqb k k') eqn:E; simpl; rewrite E; [reflexivity | exact IH].
Qed.

Lemma obj_get_set_ne k k' v o : k ≠ k' → obj_get k' (obj_set k v o) = obj_get k' o.
Proof.
  intros Hne. induction o as [|[k0 v0] o IH]; simpl.
  - apply String.eqb_neq in Hne. rewrite String.eqb_sym, Hne. reflexivity.
  - destruct (String.eqb k k0) eqn:E; simpl.
    + apply String.eqb_eq in E. subst k0.
      destruct (String.eqb k' k) eqn:E'; [|reflexivity].
      apply String.eqb_eq in E'. congruence.
    + rewrite IH. reflexivity.
Qed.

(** Assigning a property the object does not have appends it. *)
Lemma obj_set_absent k v o : obj_get k o = None → obj_set k v o = o ++ [(k, v)].
Proof.
  induction o as [|[k' v'] o IH]; simpl; [reflexivity|].
  destruct (String.eqb k k'); [discriminate|]. intros H. rewrite IH by exact H. reflexivity.
Qed.

Lemma obj_get_None k o : obj_get k o = None ↔ k ∉ fst <$> o.
Proof.
  induction o as [|[k' v'] o IH]; simpl.
  - split; [intros _ H; inversion H | reflexivity].
  - rewrite not_elem_of_cons. destruct (String.eqb_spec k k') as [->|Hne].
    + split; [discriminate | intros [H _]; contradiction].
    + rewrite IH. tauto.
Qed.

Lemma obj_get_snoc k k' v o :
  obj_get k (o ++ [(k', v)])
  = match obj_get k o with
    | Some x => Some x
    | None => if String.eqb k k' then Some v else None
    end.
Proof.
  induction o as [|[k0 v0] o IH]; simpl; [reflexivity|].
  destruct (String.eqb k k0); [reflexivity | exact IH].
Qed.

(** An object with lower-case names has no property under a name that is not
    in lower case. *)
Lemma lower_case_absent k o :
  Forall (λ kv, lower (fst kv) = fst kv) o → lower k ≠ k → obj_get k o = None.
Proof.
  intros Hall Hk. apply obj_get_None. intros Hin.
  apply list_elem_of_fmap in Hin. destruct Hin as ([k' v'] & -> & Hin).
  rewrite Forall_forall in Hall. apply Hk, (Hall _ Hin).
Qed.

Lemma hardening_absent o k :
  Forall (λ kv, lower (fst kv) = fst kv) o → k ∈ hardening → obj_get k o = None.
Proof.
  intros Hall Hk. apply lower_case_absent; [exact Hall|].
  unfold hardening in Hk. rewrite !elem_of_cons in Hk.
  intros Hl. apply String.eqb_eq in Hl.
  destruct Hk as [-> | [-> | [-> | Hk]]];
    [vm_compute in Hl; congruence .. | apply elem_of_nil in Hk; contradiction].
Qed.

(** On headers as the runtime hands them over, the hook appends its three
    properties. *)
Lemma onProxyRes_appends (p : ProxyRes) (rq : Req) (w : World) :
  Forall (λ kv, lower (fst kv) = fst kv) (headers p) →
  headers (snd (onProxyRes p rq w)) = headers p ++ hardening_props.
Proof.
  intros Hall. unfold onProxyRes, hardening_props. simpl.
  assert (H1 : obj_get "X-Content-Type-Options" (headers p) = None)
    by (apply hardening_absent; [exact Hall | unfold hardening; rewrite !elem_of_cons; auto]).
  assert (H2 : obj_get "X-Frame-Options" (headers p) = None)
    by (apply hardening_absent; [exact Hall | unfold hardening; rewrite !elem_of_cons; auto]).
  assert (H3 : obj_get "X-XSS-Protection" (headers p) = None)
    by (apply hardening_absent; [exact Hall | unfold hardening; rewrite !elem_of_cons; auto]).
  rewrite (obj_set_absent _ _ _ H1).
  rewrite (obj_set_absent "X-Frame-Options").
  - rewrite (obj_set_absent "X-XSS-Protection").
    + rewrite <- !app_assoc. reflexivity.
    + rewrite !obj_get_snoc, H3. reflexivity.
  - rewrite obj_get_snoc, H2. reflexivity.
Qed.

Lemma write_headers_snoc o k v :
  write_headers (o ++ [(k, v)]) = <[lower k := v]> (write_headers o).
Proof. unfold write_headers. rewrite foldl_app. reflexivity. Qed.

(** For headers as the runtime hands them over, the table written to the
    client holds each of them under its name. *)
Lemma write_headers_received o k :
  as_received o → write_headers o !! k = obj_get k o.
Proof.
  intros [Hall Hnd]. induction o as [|[k' v'] o IH] using rev_ind; [reflexivity|].
  apply Forall_app in Hall. destruct Hall as [Hall Hk'].
  apply Forall_cons in Hk'. destruct Hk' as [Hk' _]. simpl in Hk'.
  rewrite fmap_app in Hnd. apply NoDup_app in Hnd. destruct Hnd as (Hnd & Hdis & _).
  rewrite write_headers_snoc, obj_get_snoc, Hk'.
  destruct (String.eqb_spec k k') as [->|Hne].
  - rewrite lookup_insert_eq.
    assert (Hn : obj_get k' o = None).
    { apply obj_get_None. intros Hin. apply (Hdis k' Hin). simpl. left. }
    rewrite Hn. reflexivity.
  - rewrite lookup_insert_ne by (intros E; apply Hne; symmetry; exact E).
    rewrite (IH Hall Hnd). destruct (obj_get k o); reflexivity.
Qed.

(** The table written to the client for the headers the hook has left: the
    backend's table with the three hardening headers set on top. *)
Lemma write_headers_hardened (p : ProxyRes) (rq : Req) (w : World) :
  Forall (λ kv, lower (fst kv) = fst kv) (headers p) →
  write_headers (headers (snd (onProxyRes p rq w)))
  = <["x-xss-protection" := "1; mode=block"]>
      (<["x-frame-options" := "DENY"]>
         (<["x-content-type-options" := "nosniff"]> (write_headers (headers p)))).
Proof.
  intros Hall. rewrite (onProxyRes_appends p rq w Hall). unfold hardening_props.
  change (headers p ++ [("X-Content-Type-Options", "nosniff");
                        ("X-Frame-Options", "DENY");
                        ("X-XSS-Protection", "1; mode=block")])
    with (headers p ++ [("X-Content-Type-Options", "nosniff")]
                    ++ [("X-Frame-Options", "DENY")]
                    ++ [("X-XSS-Protection", "1; mode=block")]).
  rewrite !app_assoc, !write_headers_snoc. reflexivity.
Qed.
End Headers.

Example relayed_headers_collide :
  let p := {| statusCode := 200;
              headers := [("content-type", "application/json");
                          ("x-frame-options", "SAMEORIGIN")];
              payload := "{}" |} in
  let hs := write_headers
              (headers (snd (onProxyRes p {| method := "GET"; path := "/api/movies";
                                             ip := "10.0.0.7" |}
                               (init_world None 0)))) in
  hs !! "x-frame-options" = Some "DENY" ∧ hs !! "content-type" = Some "application/json" ∧
  size hs = 4%nat.
Proof. vm_compute. repeat split. Qed.

(** ** C6: transport errors on the proxy route *)




(** ** C7: the headers the hooks add *)

(** C7.  [onProxyRes] sets the three headers X-Content-Type-Options: nosniff,
    X-Frame-Options: DENY and X-XSS-Protection: 1; mode=block on the
    backend's response and changes nothing else of it: every other header,
    the status code and the body are the backend's.  For a backend response
    as the runtime hands it over (header names in lower case, each once) the
    hook appends the three, and the client gets the backend's status code and
    body whole, with a header table that holds the three headers with these
    values, replacing a value the backend sent under the same name, and
    every other header as the backend sent it, none more and none less; the
    statement leaves open the connection and transfer-encoding headers, which
    the middleware and the runtime settle for each connection.  [onProxyReq]
    sets X-Forwarded-Proto: http and X-Real-IP: the client address on the
    outbound request and leaves its other headers, its method and its path. *)
Theorem proxy_hooks_headers (p : ProxyRes) (prepared : ProxyReq) (rq : Req) (w : World) :
  let p' := snd (onProxyRes p rq w) in
  let out := snd (onProxyReq prepared rq w) in
  obj_get "X-Content-Type-Options" (headers p') = Some "nosniff" ∧
  obj_get "X-Frame-Options" (headers p') = Some "DENY" ∧
  obj_get "X-XSS-Protection" (headers p') = Some "1; mode=block" ∧
  (∀ k, k ∉ hardening → obj_get k (headers p') = obj_get k (headers p)) ∧
  (as_received (headers p) → headers p' = headers p ++ hardening_props) ∧
  statusCode p' = statusCode p ∧ payload p' = payload p ∧
  (∀ backend, backend out = Responds p → as_received (headers p) →
     ∃ hs, snd (snd (forward rq prepared backend w))
           = {| headersSent := true; res_status := statusCode p;
                sent := Relayed hs (payload p) true |} ∧
           hs !! "x-content-type-options" = Some "nosniff" ∧
           hs !! "x-frame-options" = Some "DENY" ∧
           hs !! "x-xss-protection" = Some "1; mode=block" ∧
           (∀ k, k ∉ lower <$> hardening → k ∉ hop_by_hop →
                 hs !! k = obj_get k (headers p))) ∧
  getHeader "X-Forwarded-Proto" out = Some "http" ∧
  getHeader "X-Real-IP" out = Some (ip rq) ∧
  (∀ n, lower n ≠ "x-forwarded-proto" → lower n ≠ "x-real-ip" →
        getHeader n out = getHeader n prepared) ∧
  preq_method out = preq_method prepared ∧ preq_path out = preq_path prepared.
Proof.
  intros p' out.
  split; [|split; [|split; [|split; [|split; [|split; [|split; [|split]]]]]]].
  - unfold p', onProxyRes. simpl.
    rewrite !obj_get_set_ne by discriminate. apply obj_get_set_eq.
  - unfold p', onProxyRes. simpl.
    rewrite obj_get_set_ne by discriminate. apply obj_get_set_eq.
  - unfold p', onProxyRes. simpl. apply obj_get_set_eq.
  - intros k Hk. unfold hardening in Hk. rewrite !not_elem_of_cons in Hk.
    destruct Hk as (H1 & H2 & H3 & _). unfold p', onProxyRes. simpl.
    rewrite obj_get_set_ne by (intros E; apply H3; symmetry; exact E).
    rewrite obj_get_set_ne by (intros E; apply H2; symmetry; exact E).
    rewrite obj_get_set_ne by (intros E; apply H1; symmetry; exact E).
    reflexivity.
  - intros [Hall _]. apply onProxyRes_appends, Hall.
  - reflexivity.
  - reflexivity.
  - intros backend Hb Hrec.
    exists (write_headers (headers p')).
    split; [unfold forward; simpl; unfold out in Hb; simpl in Hb; rewrite Hb; reflexivity|].
    unfold p'. rewrite (write_headers_hardened p rq w (proj1 Hrec)).
    split; [|split; [|split]].
    + rewrite !lookup_insert_ne by discriminate. apply lookup_insert_eq.
    + rewrite lookup_insert_ne by discriminate. apply lookup_insert_eq.
    + apply lookup_insert_eq.
    + intros k Hk _. unfold hardening in Hk. simpl in Hk. rewrite !not_elem_of_cons in Hk.
      destruct Hk as (H1 & H2 & H3 & _).
      rewrite lookup_insert_ne by (intros E; apply H3; symmetry; exact E).
      rewrite lookup_insert_ne by (intros E; apply H2; symmetry; exact E).
      rewrite lookup_insert_ne by (intros E; apply H1; symmetry; exact E).
      apply write_headers_received, Hrec.
  - unfold out, onProxyReq, getHeader, setHeader. simpl.
    split; [|split; [|split; [|split]]]; try reflexivity.
    + rewrite lookup_insert_ne by discriminate. apply lookup_insert_eq.
    + apply lookup_insert_eq.
    + intros n H1 H2.
      rewrite lookup_insert_ne by (intros E; apply H2; symmetry; exact E).
      rewrite lookup_insert_ne by (intros E; apply H1; symmetry; exact E).
      reflexivity.
Qed.

(** ** C9: the proxy route and the lifecycle state *)

(** C9.  What the proxy route sends to the backend and answers to the client
    is the same in any two worlds with the same backend address, whatever
    their lifecycle variables, timers and clocks; the route changes no
    lifecycle variable and no timer, and a running process serves it whatever
    [serverHealthy] and [serverOverloaded] read. *)
Theorem proxy_ignores_lifecycle (rq : Req) (prepared : ProxyReq)
    (backend : ProxyReq → backend_outcome) (w1 w2 : World) :
  BACKEND_URL w1 = BACKEND_URL w2 →
  snd (forward rq prepared backend w1) = snd (forward rq prepared backend w2) ∧
  lifecycle (fst (forward rq prepared backend w1)) = lifecycle w1 ∧
  timers (fst (forward rq prepared backend w1)) = timers w1 ∧
  (proc w1 = Running →
     step (Forward rq prepared backend) w1 = fst (forward rq prepared backend w1)) ∧
  (∀ healthy overloaded handle,
     snd (forward rq prepared backend
            (set_interval_var handle (set_overloaded overloaded (set_healthy healthy w1))))
     = snd (forward rq prepared backend w1)).
Proof.
  intros Hurl. split; [|split; [|split; [|split]]].
  - unfold forward. simpl. destruct (backend _); simpl; rewrite ?Hurl; reflexivity.
  - apply forward_lifecycle.
  - unfold forward. simpl. destruct (backend _); reflexivity.
  - intros Hr. unfold step. rewrite Hr. reflexivity.
  - intros healthy overloaded handle. unfold forward. simpl.
    destruct (backend _); reflexivity.
Qed.

(** [proxy_ignores_lifecycle] for a refused connection, in the initial state
    and in an unhealthy, overloaded one. *)
Lemma proxy_ignores_lifecycle_witness :
  BACKEND_URL (init_world None 0)
  = BACKEND_URL (fst (start_overload (fst (toggle_health (init_world None 5))))) ∧
  snd (forward {| method := "GET"; path := "/api/movies"; ip := "10.0.0.7" |}
         {| preq_method := "GET"; preq_path := "/api/movies"; preq_headers := ∅ |}
         (λ _, Fails {| message := "connect ECONNREFUSED"; code := Some "ECONNREFUSED" |})
         (init_world None 0))
  = snd (forward {| method := "GET"; path := "/api/movies"; ip := "10.0.0.7" |}
         {| preq_method := "GET"; preq_path := "/api/movies"; preq_headers := ∅ |}
         (λ _, Fails {| message := "connect ECONNREFUSED"; code := Some "ECONNREFUSED" |})
         (fst (start_overload (fst (toggle_health (init_world None 5)))))).
Proof.
  split; [reflexivity|].
  apply (proxy_ignores_lifecycle
           {| method := "GET"; path := "/api/movies"; ip := "10.0.0.7" |}
           {| preq_method := "GET"; preq_path := "/api/movies"; preq_headers := ∅ |}
           (λ _, Fails {| message := "connect ECONNREFUSED"; code := Some "ECONNREFUSED" |})).
  reflexivity.
Defined.


(** ** The crash countdown *)

Section Countdown.
Implicit Types (w : World) (t u : timer) (h : nat) (c : Z).

(** *** Timers other than the one a callback belongs to stay live *)

Lemma elem_update t h f w :
  t ∈ timers w → tid t ≠ h → t ∈ timers (update_timer h f w).
Proof.
  intros Ht Hne. simpl.
  replace t with (at_handle h f t)
    by (unfold at_handle; rewrite decide_False by exact Hne; reflexivity).
  apply list_elem_of_fmap_2, Ht.
Qed.

Lemma elem_clear t h w :
  t ∈ timers w → tid t ≠ h → t ∈ timers (clearInterval h w).
Proof.
  intros Ht Hne. simpl. apply (list_elem_of_filter (λ u, tid u ≠ h)). split; assumption.
Qed.

Lemma elem_add t cbk ms rep w :
  t ∈ timers w → t ∈ timers (snd (add_timer cbk ms rep w)).
Proof. intros Ht. simpl. apply elem_of_app. left. exact Ht. Qed.

Lemma run_callback_keeps u t w :
  t ∈ timers w → tid t ≠ tid u → t ∈ timers (run_callback u w).
Proof.
  intros Ht Hne. unfold run_callback. destruct (cb u); try exact Ht.
  - unfold crash_tick. case_decide.
    + unfold setTimeout. do 3 apply elem_add.
      apply (elem_clear t (tid u) (update_timer (tid u) _ w)); [|exact Hne].
      apply (elem_update t (tid u) _ w); assumption.
    + apply (elem_update t (tid u) _ w); assumption.
  - simpl. apply elem_of_app. left. exact Ht.
Qed.

Lemma fire_keeps u t w :
  t ∈ timers w → tid t ≠ tid u → t ∈ timers (fire u w).
Proof.
  intros Ht Hne. unfold fire. destruct (every u).
  - apply elem_update; [|exact Hne]. apply run_callback_keeps; assumption.
  - apply run_callback_keeps; [|exact Hne].
    apply (elem_clear t (tid u) w); assumption.
Qed.

(** No request, no other timer and no passing of time removes or changes a
    live countdown interval. *)
Lemma step_keeps_countdown (a : action) t c w :
  wf w → t ∈ timers w → cb t = CrashTick c → a ≠ Fire (tid t) →
  t ∈ timers (step a w).
Proof.
  intros Hwf Ht Hcb Ha. unfold step. destruct (proc w); try exact Ht.
  destruct a as [e | rq p be | h | ms | sg].
  - destruct e; simpl; try exact Ht.
    + unfold health. destruct (negb _); exact Ht.
    + apply elem_of_app. left. exact Ht.
    + unfold start_overload. destruct (overloadInterval w); [exact Ht|].
      simpl. apply elem_of_app. left. exact Ht.
    + unfold stop_overload. destruct (overloadInterval w) as [h|] eqn:E; [|exact Ht].
      apply (elem_clear t h w); [exact Ht|].
      intros Heq. apply (wf_handle_not w t Hwf Ht).
      * unfold is_stress. rewrite Hcb. reflexivity.
      * rewrite E, Heq. reflexivity.
  - unfold forward; simpl. destruct (be _); exact Ht.
  - destruct (find_timer h (timers w)) as [u|] eqn:E; [|exact Ht].
    apply find_timer_some in E. destruct E as [_ Hu].
    apply fire_keeps; [exact Ht|]. intros Heq. apply Ha. congruence.
  - exact Ht.
  - exact Ht.
Qed.

Lemma run_keeps_countdown (acts : list action) t c w :
  wf w → t ∈ timers w → cb t = CrashTick c →
  Forall (λ a, a ≠ Fire (tid t)) acts →
  t ∈ timers (run acts w).
Proof.
  revert w. induction acts as [|a acts IH]; intros w Hwf Ht Hcb Hall; [exact Ht|].
  rewrite run_cons. apply Forall_cons in Hall. destruct Hall as [Ha Hall].
  apply IH; [apply wf_step, Hwf | | exact Hcb | exact Hall].
  apply (step_keeps_countdown a t c); assumption.
Qed.
End Countdown.

Section CountdownTicks.
Implicit Types (w : World) (t u : timer) (h : nat) (c : Z).

Lemma at_handle_compose h (f g : timer → timer) (ts : list timer) :
  (∀ u, tid (g u) = tid u) →
  at_handle h f <$> (at_handle h g <$> ts) = at_handle h (f ∘ g) <$> ts.
Proof.
  intros Hg. rewrite <- list_fmap_compose. apply list_fmap_ext. intros _ u _. simpl.
  unfold at_handle at 2 3. destruct (decide (tid u = h)) as [Hu|Hu].
  - unfold at_handle. rewrite decide_True by (rewrite Hg; exact Hu). reflexivity.
  - unfold at_handle. rewrite decide_False by exact Hu. reflexivity.
Qed.

Lemma at_handle_absent h (f : timer → timer) (ts : list timer) :
  Forall (λ u, tid u ≠ h) ts → at_handle h f <$> ts = ts.
Proof.
  induction 1 as [|u ts Hu _ IH]; [reflexivity|].
  rewrite fmap_cons, IH. unfold at_handle. rewrite decide_False by exact Hu. reflexivity.
Qed.

(** A countdown tick that does not reach zero: it logs the new count and
    stays live with that count, due one second after it started. *)
Lemma fire_tick_more t c w :
  cb t = CrashTick c → every t = Some 1000 → (1 < c)%Z →
  let start := Z.max (now w) (due t) in
  proc (fire t w) = proc w ∧ now (fire t w) = start ∧
  next_id (fire t w) = next_id w ∧
  trace (fire t w) = (start, Log (tick_line (c - 1))) :: trace w ∧
  timers (fire t w)
  = at_handle (tid t) (with_due (start + 1000) ∘ with_cb (CrashTick (c - 1))) <$> timers w.
Proof.
  intros Hcb Hev Hc start. unfold fire, run_callback. rewrite Hev, Hcb.
  unfold crash_tick. rewrite decide_False by lia. simpl.
  repeat split. apply at_handle_compose. reflexivity.
Qed.

(** The countdown tick that reaches zero: it logs, clears its own
    interval and registers the three termination timeouts, 100, 200 and
    300 ms after it started. *)
Lemma fire_tick_last t c w :
  cb t = CrashTick c → every t = Some 1000 → (c ≤ 1)%Z → (tid t < next_id w)%nat →
  let start := Z.max (now w) (due t) in
  proc (fire t w) = proc w ∧ now (fire t w) = start ∧
  next_id (fire t w) = S (S (S (next_id w))) ∧
  trace (fire t w)
  = (start, Log "💥 FRONTEND CONTAINER CRASH - Forcing exit")
      :: (start, Log (tick_line (c - 1))) :: trace w ∧
  timers (fire t w)
  = filter (λ u, tid u ≠ tid t) (timers w) ++ escalation (next_id w) start.
Proof.
  intros Hcb Hev Hc Hlt start. unfold fire, run_callback. rewrite Hev, Hcb.
  unfold crash_tick. rewrite decide_True by lia. simpl.
  repeat split. fold start.
  rewrite clear_at_handle by reflexivity.
  rewrite <- !app_assoc. simpl. apply at_handle_absent.
  apply Forall_app. split.
  - apply Forall_forall. intros u Hu.
    apply (list_elem_of_filter (λ u, tid u ≠ tid t)) in Hu. apply Hu.
  - repeat constructor; simpl; lia.
Qed.

(** What the three termination timeouts do when they run. *)
Lemma fire_termination t w :
  every t = None →
  let start := Z.max (now w) (due t) in
  (cb t = ExitTimer →
     proc (fire t w) = Exited 1 ∧ trace (fire t w) = (start, ExitCall 1) :: trace w) ∧
  (cb t = ThrowTimer →
     proc (fire t w) = Uncaught "Forced container crash" ∧
     trace (fire t w) = (start, Thrown "Forced container crash") :: trace w) ∧
  (cb t = KillTimer →
     proc (fire t w) = Killed "SIGKILL" ∧
     trace (fire t w) = (start, KillCall "SIGKILL") :: trace w).
Proof.
  intros Hev start. unfold fire, run_callback. rewrite Hev.
  repeat split; rewrite H; reflexivity.
Qed.

(** *** The countdown when nothing else is scheduled *)

Lemma solo_tick t c w :
  timers w = [t] → proc w = Running → (now w ≤ due t)%Z →
  cb t = CrashTick c → every t = Some 1000 → (1 < c)%Z →
  timers (loop_step w)
  = [{| tid := tid t; due := due t + 1000; every := Some 1000; cb := CrashTick (c - 1) |}] ∧
  proc (loop_step w) = Running ∧ now (loop_step w) = due t ∧
  next_id (loop_step w) = next_id w ∧
  trace (loop_step w) = (due t, Log (tick_line (c - 1))) :: trace w.
Proof.
  intros Hts Hp Hnow Hcb Hev Hc. unfold loop_step. rewrite Hp, Hts. simpl.
  destruct (fire_tick_more t c w Hcb Hev Hc) as (H1 & H2 & H3 & H4 & H5).
  rewrite Z.max_r in * by exact Hnow.
  rewrite H1, H2, H3, H4, H5, Hts, Hp. simpl.
  unfold at_handle. rewrite decide_True by reflexivity.
  unfold with_due, with_cb. simpl. rewrite Hev.
  repeat split.
Qed.

Lemma solo_last t c w :
  timers w = [t] → proc w = Running → (now w ≤ due t)%Z →
  cb t = CrashTick c → every t = Some 1000 → (c ≤ 1)%Z → (tid t < next_id w)%nat →
  timers (loop_step w) = escalation (next_id w) (due t) ∧
  proc (loop_step w) = Running ∧ now (loop_step w) = due t ∧
  trace (loop_step w)
  = (due t, Log "💥 FRONTEND CONTAINER CRASH - Forcing exit")
      :: (due t, Log (tick_line (c - 1))) :: trace w.
Proof.
  intros Hts Hp Hnow Hcb Hev Hc Hlt. unfold loop_step. rewrite Hp, Hts. simpl.
  destruct (fire_tick_last t c w Hcb Hev Hc Hlt) as (H1 & H2 & H3 & H4 & H5).
  rewrite Z.max_r in * by exact Hnow.
  rewrite H1, H2, H4, H5, Hts, Hp.
  rewrite filter_cons, decide_False by (intros H; apply H; reflexivity).
  repeat split.
Qed.

Lemma solo_exit (n : nat) (s : Z) w :
  timers w = escalation n s → proc w = Running → (now w ≤ s + 100)%Z →
  proc (loop_step w) = Exited 1 ∧ now (loop_step w) = (s + 100)%Z ∧
  trace (loop_step w) = (s + 100, ExitCall 1)%Z :: trace w.
Proof.
  intros Hts Hp Hnow. unfold loop_step. rewrite Hp, Hts.
  unfold escalation. cbn [next_timer due].
  rewrite (proj2 (Z.ltb_ge (s + 300) (s + 200))) by lia. cbn [due].
  rewrite (proj2 (Z.ltb_ge (s + 200) (s + 100))) by lia.
  unfold fire. cbn [every due cb tid run_callback]. rewrite Z.max_r by exact Hnow.
  repeat split.
Qed.
End CountdownTicks.

Lemma run_loop_lifecycle (n : nat) (w : World) :
  lifecycle (run_loop n w) = lifecycle w.
Proof.
  revert w. induction n as [|n IH]; intros w; [reflexivity|].
  simpl. rewrite IH. unfold loop_step.
  destruct (proc w); try reflexivity.
  destruct (next_timer (timers w)); [apply fire_lifecycle | reflexivity].
Qed.

(** With nothing else scheduled, the countdown logs 2, 1 and 0 one second
    apart and the process exits with code 1 another 100 ms later. *)
Lemma quiet_countdown (w : World) :
  timers w = [] → proc w = Running →
  proc (run_loop 3 (fst (crash w))) = Running ∧
  proc (run_loop 4 (fst (crash w))) = Exited 1 ∧
  now (run_loop 4 (fst (crash w))) = (now w + 3100)%Z ∧
  trace (run_loop 4 (fst (crash w)))
  = [ (now w + 3100, ExitCall 1);
      (now w + 3000, Log "💥 FRONTEND CONTAINER CRASH - Forcing exit");
      (now w + 3000, Log "💥 Container crashing in 0 seconds...");
      (now w + 2000, Log "💥 Container crashing in 1 second...");
      (now w + 1000, Log "💥 Container crashing in 2 seconds...");
      (now w, Sent (crash_ack (now w)));
      (now w, Log "💥 CRASH ENDPOINT CALLED - Container will terminate in 3 seconds")
    ]%Z ++ trace w.
Proof.
  intros Hts Hp.
  set (w0 := fst (crash w)).
  assert (T0 : timers w0 = [countdown_timer (next_id w) (now w)])
    by (unfold w0; simpl; rewrite Hts; reflexivity).
  destruct (solo_tick _ 3 w0 T0 Hp) as (T1 & P1 & N1 & I1 & L1);
    [simpl; lia | reflexivity | reflexivity | lia |].
  destruct (solo_tick _ (3 - 1) _ T1 P1) as (T2 & P2 & N2 & I2 & L2);
    [rewrite N1; simpl; lia | reflexivity | reflexivity | lia |].
  destruct (solo_last _ (3 - 1 - 1) _ T2 P2) as (T3 & P3 & N3 & L3);
    [rewrite N2; simpl; lia | reflexivity | reflexivity | lia
    | rewrite I2, I1; simpl; lia |].
  destruct (solo_exit _ _ _ T3 P3) as (P4 & N4 & L4);
    [rewrite N3; simpl; lia |].
  change (run_loop 3 w0) with (loop_step (loop_step (loop_step w0))).
  change (run_loop 4 w0) with (loop_step (loop_step (loop_step (loop_step w0)))).
  split; [exact P3|]. split; [exact P4|]. split.
  - rewrite N4. simpl. lia.
  - rewrite L4, L3, L2, L1. simpl.
    repeat (f_equal; try lia).
Qed.

(** ** The countdown ends the process, whatever else is scheduled *)

Section Liveness.
Implicit Types (w : World) (t u f : timer) (h : nat) (ts : list timer).

Lemma sum_absent (g : timer → nat) h (k : timer → timer) ts :
  Forall (λ u, tid u ≠ h) ts →
  sum_list_with g (at_handle h k <$> ts) = sum_list_with g ts.
Proof. intros H. rewrite at_handle_absent by exact H. reflexivity. Qed.

Lemma tid_not_in ts t : tid t ∉ tid <$> ts → Forall (λ u, tid u ≠ tid t) ts.
Proof.
  intros H. apply Forall_forall. intros u Hu Heq. apply H.
  rewrite <- Heq. apply list_elem_of_fmap_2, Hu.
Qed.

(** Rewriting the one timer with a given handle changes a sum over the queue
    by the change at that timer. *)
Lemma sum_update (g : timer → nat) (k : timer → timer) ts t :
  NoDup (tid <$> ts) → t ∈ ts →
  (sum_list_with g (at_handle (tid t) k <$> ts) + g t
   = sum_list_with g ts + g (k t))%nat.
Proof.
  induction ts as [|x ts IH]; intros Hnd Ht; [inversion Ht|].
  rewrite fmap_cons in Hnd. apply NoDup_cons in Hnd. destruct Hnd as [Hx Hnd].
  rewrite fmap_cons. simpl.
  apply elem_of_cons in Ht. destruct Ht as [->|Ht].
  - rewrite (sum_absent g _ k ts) by (apply tid_not_in, Hx).
    unfold at_handle. rewrite decide_True by reflexivity. lia.
  - assert (Hne : tid x ≠ tid t).
    { intros Heq. apply Hx. rewrite Heq. apply list_elem_of_fmap_2, Ht. }
    unfold at_handle at 1. rewrite decide_False by exact Hne.
    specialize (IH Hnd Ht). lia.
Qed.

Lemma filter_absent h ts :
  Forall (λ u, tid u ≠ h) ts → filter (λ u, tid u ≠ h) ts = ts.
Proof.
  induction 1 as [|u ts Hu _ IH]; [reflexivity|].
  rewrite filter_cons, decide_True by exact Hu. rewrite IH. reflexivity.
Qed.

(** Clearing the one timer with a given handle takes its share off a sum
    over the queue. *)
Lemma sum_clear (g : timer → nat) ts t :
  NoDup (tid <$> ts) → t ∈ ts →
  (sum_list_with g (filter (λ u, tid u ≠ tid t) ts) + g t = sum_list_with g ts)%nat.
Proof.
  induction ts as [|x ts IH]; intros Hnd Ht; [inversion Ht|].
  rewrite fmap_cons in Hnd. apply NoDup_cons in Hnd. destruct Hnd as [Hx Hnd].
  rewrite filter_cons.
  apply elem_of_cons in Ht. destruct Ht as [->|Ht].
  - rewrite decide_False by (intros H; apply H; reflexivity).
    rewrite filter_absent by (apply tid_not_in, Hx). simpl. lia.
  - assert (Hne : tid x ≠ tid t).
    { intros Heq. apply Hx. rewrite Heq. apply list_elem_of_fmap_2, Ht. }
    rewrite decide_True by exact Hne. simpl.
    specialize (IH Hnd Ht). lia.
Qed.

Lemma next_timer_min ts t :
  next_timer ts = Some t → ∀ u, u ∈ ts → (due t ≤ due u)%Z.
Proof.
  revert t. induction ts as [|x ts IH]; intros t H u Hu; [inversion Hu|].
  simpl in H. destruct (next_timer ts) as [v|] eqn:E.
  - specialize (IH v eq_refl).
    destruct (due v <? due x)%Z eqn:Hlt; injection H as <-.
    + apply Z.ltb_lt in Hlt. apply elem_of_cons in Hu. destruct Hu as [->|Hu]; [lia|].
      apply IH, Hu.
    + apply Z.ltb_ge in Hlt. apply elem_of_cons in Hu. destruct Hu as [->|Hu]; [lia|].
      specialize (IH u Hu). lia.
  - injection H as <-. destruct ts as [|y ts].
    + apply list_elem_of_singleton in Hu. subst. lia.
    + simpl in E. destruct (next_timer ts); [destruct (_ <? _)%Z|]; discriminate.
Qed.

Lemma next_timer_none ts : next_timer ts = None → ts = [].
Proof.
  destruct ts as [|x ts]; [reflexivity|]. simpl.
  destruct (next_timer ts); [destruct (_ <? _)%Z|]; discriminate.
Qed.

Lemma pending_pos ts : (0 < pending ts)%nat → ∃ f, f ∈ ts ∧ (0 < pot f)%nat.
Proof.
  induction ts as [|x ts IH]; simpl; [lia|]. intros H.
  destruct (decide (0 < pot x)%nat) as [Hx|Hx].
  - exists x. split; [left | exact Hx].
  - destruct IH as (f & Hf & Hp); [unfold pending in *; lia|].
    exists f. split; [right; exact Hf | exact Hp].
Qed.
End Liveness.

Section LivenessLoop.
Implicit Types (w : World) (t u f : timer) (h : nat) (ts : list timer).

Lemma fire_overload t w :
  cb t = OverloadTick → every t = Some 100 → (tid t < next_id w)%nat →
  proc (fire t w) = proc w ∧
  timers (fire t w)
  = (at_handle (tid t) (with_due (Z.max (now w) (due t) + 100)) <$> timers w)
    ++ [{| tid := next_id w; due := Z.max (now w) (due t) + 500 + 200;
           every := None; cb := ReleaseWaste |}].
Proof.
  intros Hcb Hev Hlt. unfold fire, run_callback. rewrite Hev, Hcb.
  unfold overload_tick. simpl. split; [reflexivity|].
  rewrite fmap_app. f_equal. simpl.
  unfold at_handle. rewrite decide_False by (simpl; lia). reflexivity.
Qed.

Lemma fire_release t w :
  cb t = ReleaseWaste → every t = None →
  proc (fire t w) = proc w ∧
  timers (fire t w) = filter (λ u, tid u ≠ tid t) (timers w).
Proof.
  intros Hcb Hev. unfold fire, run_callback. rewrite Hev, Hcb. split; reflexivity.
Qed.

(** A stress interval due again at least 100 ms later can cause fewer
    callbacks before [D]. *)
Lemma weight_rearmed (D d : Z) t :
  cb t = OverloadTick → (due t ≤ D)%Z → (due t + 100 ≤ d)%Z →
  (weight D (with_due d t) + 2 ≤ weight D t)%nat.
Proof.
  intros Hcb HD Hd. unfold weight. simpl. rewrite Hcb.
  destruct (Z.leb_spec (due t) D) as [_|]; [|lia].
  destruct (Z.leb_spec d D) as [HdD|]; [|lia].
  assert (((D - d) / 100 + 1 ≤ (D - due t) / 100)%Z).
  { replace (D - due t)%Z with ((D - due t - 100) + 1 * 100)%Z by lia.
    rewrite Z.div_add by lia.
    assert ((D - d) / 100 ≤ (D - due t - 100) / 100)%Z by (apply Z.div_le_mono; lia).
    lia. }
  assert (0 ≤ (D - d) / 100)%Z by (apply Z.div_pos; lia).
  lia.
Qed.

Lemma weight_fatal (D : Z) t : (0 < pot t)%nat → weight D t = 0%nat.
Proof. unfold pot, weight. destruct (cb t); simpl; lia || reflexivity. Qed.

(** One turn of the event loop while a timer of the crash handler is live:
    the turn ends the process, or runs a callback of the crash handler, or
    runs a stress callback that was due no later than that timer. *)
Lemma loop_progress w f :
  wf w → proc w = Running → f ∈ timers w → (0 < pot f)%nat →
  wf (loop_step w) ∧
  (ended_by_crash (proc (loop_step w))
   ∨ (proc (loop_step w) = Running ∧
      0 < pending (timers (loop_step w)) < pending (timers w))%nat
   ∨ (proc (loop_step w) = Running ∧
      pending (timers (loop_step w)) = pending (timers w) ∧
      f ∈ timers (loop_step w) ∧
      backlog (due f) (timers (loop_step w)) < backlog (due f) (timers w))%nat).
Proof.
  intros Hwf Hp Hf Hpot. split; [apply wf_loop_step, Hwf|].
  unfold loop_step. rewrite Hp.
  destruct (next_timer (timers w)) as [t|] eqn:E;
    [|apply next_timer_none in E; rewrite E in Hf; inversion Hf].
  pose proof (next_timer_elem _ _ E) as Ht.
  pose proof (next_timer_min _ _ E f Hf) as Hdue.
  destruct Hwf as (Hnd & Hfr & Hok & Hst).
  assert (Hokt : timer_ok t) by (rewrite Forall_forall in Hok; apply Hok, Ht).
  assert (Hlt : (tid t < next_id w)%nat) by (rewrite Forall_forall in Hfr; apply Hfr, Ht).
  unfold timer_ok, registered_ok in Hokt.
  destruct (cb t) eqn:Hcb.
  - (* a countdown tick *)
    destruct Hokt as [Hev Hc]. right. left.
    destruct (decide (1 < countdown)%Z) as [Hmore|Hlast].
    + destruct (fire_tick_more t countdown w Hcb Hev Hmore) as (H1 & _ & _ & _ & H5).
      rewrite H1, H5. split; [exact Hp|].
      pose proof (sum_update pot
                    (with_due (Z.max (now w) (due t) + 1000) ∘ with_cb (CrashTick (countdown - 1)))
                    (timers w) t Hnd Ht) as Hs.
      assert (Hpt : pot t = (3 + Z.to_nat countdown)%nat)
        by (unfold pot; rewrite Hcb; reflexivity).
      rewrite Hpt in Hs.
      change (pot ((_ ∘ _) t)) with (3 + Z.to_nat (countdown - 1))%nat in Hs.
      pose proof (sum_list_with_in t pot (timers w) Ht) as Hin.
      unfold pending. lia.
    + destruct (fire_tick_last t countdown w Hcb Hev ltac:(lia) Hlt) as (H1 & _ & _ & _ & H5).
      rewrite H1, H5. split; [exact Hp|].
      pose proof (sum_clear pot (timers w) t Hnd Ht) as Hs.
      assert (Hpt : pot t = (3 + Z.to_nat countdown)%nat)
        by (unfold pot; rewrite Hcb; reflexivity).
      rewrite Hpt in Hs.
      pose proof (sum_list_with_in t pot (timers w) Ht) as Hin.
      unfold pending. rewrite sum_list_with_app.
      change (sum_list_with pot (escalation _ _)) with 3%nat. lia.
  - left. left. apply (fire_termination t w Hokt). exact Hcb.
  - left. right. left. apply (fire_termination t w Hokt). exact Hcb.
  - left. right. right. apply (fire_termination t w Hokt). exact Hcb.
  - (* a stress cycle *)
    right. right.
    destruct (fire_overload t w Hcb Hokt Hlt) as (H1 & H5). rewrite H1, H5.
    assert (Hne : tid f ≠ tid t).
    { intros Heq. assert (f = t) by (apply (tid_unique (timers w)); assumption).
      subst f. unfold pot in Hpot. rewrite Hcb in Hpot. lia. }
    split; [exact Hp|]. split; [|split].
    + unfold pending. rewrite sum_list_with_app. simpl.
      pose proof (sum_update pot (with_due (Z.max (now w) (due t) + 100)) (timers w) t Hnd Ht) as Hs.
      change (pot (with_due _ t)) with (pot t) in Hs.
      change (pot {| tid := _; due := _; every := None; cb := ReleaseWaste |}) with 0%nat. lia.
    + apply elem_of_app. left.
      replace f with (at_handle (tid t) (with_due (Z.max (now w) (due t) + 100)) f)
        by (unfold at_handle; rewrite decide_False by exact Hne; reflexivity).
      apply list_elem_of_fmap_2, Hf.
    + unfold backlog. rewrite sum_list_with_app. simpl.
      pose proof (sum_update (weight (due f)) (with_due (Z.max (now w) (due t) + 100))
                    (timers w) t Hnd Ht) as Hs.
      pose proof (weight_rearmed (due f) (Z.max (now w) (due t) + 100) t Hcb Hdue ltac:(lia)) as Hw.
      assert (Hr : (weight (due f)
                      {| tid := next_id w; due := Z.max (now w) (due t) + 500 + 200;
                         every := None; cb := ReleaseWaste |} ≤ 1)%nat).
      { unfold weight. simpl. destruct (_ <=? _)%Z; lia. }
      lia.
  - (* the release of a cycle's memory *)
    right. right.
    destruct (fire_release t w Hcb Hokt) as (H1 & H5). rewrite H1, H5.
    assert (Hne : tid f ≠ tid t).
    { intros Heq. assert (f = t) by (apply (tid_unique (timers w)); assumption).
      subst f. unfold pot in Hpot. rewrite Hcb in Hpot. lia. }
    split; [exact Hp|]. split; [|split].
    + pose proof (sum_clear pot (timers w) t Hnd Ht) as Hs.
      unfold pending. unfold pot at 2 in Hs. rewrite Hcb in Hs. lia.
    + apply (list_elem_of_filter (λ u, tid u ≠ tid t)). split; assumption.
    + pose proof (sum_clear (weight (due f)) (timers w) t Hnd Ht) as Hs.
      unfold backlog. unfold weight at 2 in Hs. rewrite Hcb in Hs.
      destruct (Z.leb_spec (due t) (due f)); lia.
Qed.

Lemma ended_not_running (p : proc_status) : ended_by_crash p → p ≠ Running.
Proof. intros [-> | [-> | ->]]; discriminate. Qed.

(** While a timer of the crash handler is live in a running process, the
    event loop ends the process after finitely many turns. *)
Lemma loop_terminates (m1 : nat) :
  ∀ w, wf w → proc w = Running → pending (timers w) = m1 → (0 < m1)%nat →
       ∃ n, ended_by_crash (proc (run_loop n w)).
Proof.
  induction m1 as [m1 IH1] using lt_wf_ind. intros w Hwf Hp Hm Hpos.
  destruct (pending_pos (timers w)) as (f & Hf & Hpot); [lia|].
  remember (backlog (due f) (timers w)) as m2 eqn:Hm2.
  revert w Hwf Hp Hm Hf Hm2.
  induction m2 as [m2 IH2] using lt_wf_ind. intros w Hwf Hp Hm Hf Hm2.
  destruct (loop_progress w f Hwf Hp Hf Hpot) as (Hwf' & [Hend | [(Hp' & Hlt) | (Hp' & Heq & Hf' & Hlt)]]).
  - exists 1%nat. exact Hend.
  - destruct (IH1 (pending (timers (loop_step w))) ltac:(lia) (loop_step w) Hwf' Hp' eq_refl ltac:(lia))
      as (n & Hn).
    exists (S n). exact Hn.
  - destruct (IH2 (backlog (due f) (timers (loop_step w))) ltac:(lia) (loop_step w) Hwf' Hp'
                ltac:(lia) Hf' eq_refl) as (n & Hn).
    exists (S n). exact Hn.
Qed.
End LivenessLoop.

(** After POST /admin/crash in any running state reached from the initial
    one, the event loop ends the process through one of the handler's
    termination timeouts after finitely many turns, whatever else is
    scheduled. *)
Lemma crash_terminates (url : option string) (t0 : Z) (acts : list action) :
  proc (run acts (init_world url t0)) = Running →
  ∃ n, ended_by_crash (proc (run_loop n (fst (crash (run acts (init_world url t0)))))).
Proof.
  intros Hp.
  apply (loop_terminates (pending (timers (fst (crash (run acts (init_world url t0))))))).
  - apply (wf_handle_endpoint Crash), wf_run, wf_init.
  - exact Hp.
  - reflexivity.
  - simpl. unfold pending. rewrite sum_list_with_app.
    change (sum_list_with pot [_]) with 6%nat. lia.
Qed.

(** ** C8: the crash endpoint *)

(** C8.  In every state reached from the initial one, POST /admin/crash
    answers 200 with [{message, countdown: 3, timestamp}], and when the
    handler returns the answer is sent, the process status is unchanged and
    all it has scheduled is an interval of 1000 ms with [countdown = 3].
    Each run of that interval logs the decremented count and, while the count
    is above zero, stays live; the run that reaches zero clears the interval
    and schedules [process.exit(1)] after 100 ms, a thrown error after 200 ms
    and SIGKILL after 300 ms, each of which ends the process when it runs.
    No request, no other timer and no passing of time removes or alters a
    live countdown, and in a running process the event loop ends the process
    through one of the three timeouts after finitely many turns, whatever
    else is scheduled.  With nothing else scheduled the counts 2, 1, 0 are
    logged 1000, 2000 and 3000 ms after the request and the process has
    exited with code 1 at 3100 ms. *)
Theorem crash_countdown (url : option string) (t0 : Z) (acts : list action) :
  let w := run acts (init_world url t0) in
  let wc := fst (crash w) in
  let r := snd (crash w) in
  (r = crash_ack (now w) ∧ status r = 200 ∧
   keys (body r) = ["message"; "countdown"; "timestamp"] ∧
   field "countdown" (body r) = Some (JNum 3)) ∧
  (proc wc = proc w ∧
   trace wc
   = (now w, Sent r)
       :: (now w, Log "💥 CRASH ENDPOINT CALLED - Container will terminate in 3 seconds")
       :: trace w ∧
   timers wc = timers w ++ [countdown_timer (next_id w) (now w)]) ∧
  (∀ v t c, cb t = CrashTick c → every t = Some 1000 → (1 < c)%Z →
     proc (fire t v) = proc v ∧
     trace (fire t v) = (Z.max (now v) (due t), Log (tick_line (c - 1))) :: trace v ∧
     timers (fire t v)
     = at_handle (tid t)
         (with_due (Z.max (now v) (due t) + 1000) ∘ with_cb (CrashTick (c - 1)))
       <$> timers v) ∧
  (∀ v t c, cb t = CrashTick c → every t = Some 1000 → (c ≤ 1)%Z →
     (tid t < next_id v)%nat →
     proc (fire t v) = proc v ∧
     trace (fire t v)
     = (Z.max (now v) (due t), Log "💥 FRONTEND CONTAINER CRASH - Forcing exit")
         :: (Z.max (now v) (due t), Log (tick_line (c - 1))) :: trace v ∧
     timers (fire t v)
     = filter (λ u, tid u ≠ tid t) (timers v)
       ++ escalation (next_id v) (Z.max (now v) (due t))) ∧
  (∀ v t, every t = None →
     (cb t = ExitTimer → proc (fire t v) = Exited 1) ∧
     (cb t = ThrowTimer → proc (fire t v) = Uncaught "Forced container crash") ∧
     (cb t = KillTimer → proc (fire t v) = Killed "SIGKILL")) ∧
  (∀ t c more, t ∈ timers wc → cb t = CrashTick c →
     Forall (λ a, a ≠ Fire (tid t)) more → t ∈ timers (run more wc)) ∧
  (proc w = Running → ∃ n, ended_by_crash (proc (run_loop n wc))) ∧
  (timers w = [] → proc w = Running →
     proc (run_loop 3 wc) = Running ∧
     proc (run_loop 4 wc) = Exited 1 ∧
     now (run_loop 4 wc) = (now w + 3100)%Z ∧
     trace (run_loop 4 wc)
     = [ (now w + 3100, ExitCall 1);
         (now w + 3000, Log "💥 FRONTEND CONTAINER CRASH - Forcing exit");
         (now w + 3000, Log "💥 Container crashing in 0 seconds...");
         (now w + 2000, Log "💥 Container crashing in 1 second...");
         (now w + 1000, Log "💥 Container crashing in 2 seconds...");
         (now w, Sent r);
         (now w, Log "💥 CRASH ENDPOINT CALLED - Container will terminate in 3 seconds")
       ]%Z ++ trace w).
Proof.
  intros w wc r.
  assert (Hwf : wf wc).
  { apply (wf_handle_endpoint Crash), wf_run, wf_init. }
  split; [repeat split|].
  split; [repeat split|].
  split.
  { intros v t c Hcb Hev Hc.
    destruct (fire_tick_more t c v Hcb Hev Hc) as (H1 & _ & _ & H4 & H5). auto. }
  split.
  { intros v t c Hcb Hev Hc Hlt.
    destruct (fire_tick_last t c v Hcb Hev Hc Hlt) as (H1 & _ & _ & H4 & H5). auto. }
  split.
  { intros v t Hev. destruct (fire_termination t v Hev) as (H1 & H2 & H3).
    repeat split; intros H; [apply H1 | apply H2 | apply H3]; exact H. }
  split.
  { intros t c more Ht Hcb Hall. apply (run_keeps_countdown more t c); assumption. }
  split.
  { intros Hp. apply crash_terminates, Hp. }
  intros Hts Hp. apply quiet_countdown; assumption.
Qed.

(** ** C10: the crash endpoint and the lifecycle state *)

(** C10.  In every state reached from the initial one, the crash handler
    changes no lifecycle variable and removes no timer, and neither does any
    later turn of the event loop, the countdown ticks among them: through
    every turn the lifecycle variables read as before the request and, if a
    stress cycle was active, its interval is still live, the only one. *)
Theorem crash_keeps_lifecycle (url : option string) (t0 : Z) (acts : list action) (n : nat) :
  let w := run acts (init_world url t0) in
  let wc := fst (crash w) in
  lifecycle wc = lifecycle w ∧
  (∀ t, t ∈ timers w → t ∈ timers wc) ∧
  (∀ h c v, lifecycle (crash_tick h c v) = lifecycle v) ∧
  lifecycle (run_loop n wc) = lifecycle w ∧
  (∀ h, overloadInterval w = Some h →
     ∃ t, t ∈ timers (run_loop n wc) ∧ tid t = h ∧
          cb t = OverloadTick ∧ every t = Some 100) ∧
  (serverOverloaded w = true → stress_timers (run_loop n wc) = 1%nat).
Proof.
  intros w wc.
  assert (Hwf : wf (run_loop n wc)).
  { apply wf_run_loop, (wf_handle_endpoint Crash), wf_run, wf_init. }
  assert (Hl : lifecycle (run_loop n wc) = lifecycle w)
    by (rewrite run_loop_lifecycle; reflexivity).
  split; [reflexivity|].
  split; [intros t Ht; apply elem_of_app; left; exact Ht|].
  split; [intros h c v; unfold crash_tick; case_decide; reflexivity|].
  split; [exact Hl|].
  unfold lifecycle in Hl. injection Hl as _ Ho Hi.
  split.
  - intros h Hh. apply (wf_handle_live _ h Hwf). rewrite Hi. exact Hh.
  - intros Hov. rewrite (wf_stress_count _ Hwf), Hi.
    pose proof (run_handle_invariant url t0 acts) as Hinv.
    fold w in Hinv. unfold handle_invariant in Hinv. rewrite Hov in Hinv.
    destruct (overloadInterval w); [reflexivity|].
    symmetry in Hinv. apply bool_decide_eq_true in Hinv. contradiction.
Qed.

(** A run with a stress cycle active when the crash is requested: stress
    cycles keep completing during the countdown, the process exits, and the
    lifecycle state is as the stress cycle left it. *)
Example overload_during_countdown :
  let w := run_loop 23 (run [Call StartOverload; Call Crash] (init_world None 0)) in
  proc w = Exited 1 ∧ lifecycle w = (true, true, Some 0%nat) ∧
  (0 < cycles_completed w)%nat.
Proof. vm_compute. repeat split; lia. Qed.

(** * Further properties of the file *)

(** ** Memory held by the stress cycle, lines 149-156 *)

Section Memory.
Implicit Types (w : World) (t u : timer) (h : nat) (ts : list timer).

Lemma releases_app ts1 ts2 : releases (ts1 ++ ts2) = (releases ts1 + releases ts2)%nat.
Proof. apply sum_list_with_app. Qed.

(** Rewriting timers without changing what they call keeps the count. *)
Lemma releases_at_handle h (k : timer → timer) ts :
  (∀ u, u ∈ ts → tid u = h → is_release (k u) = is_release u) →
  releases (at_handle h k <$> ts) = releases ts.
Proof.
  induction ts as [|x ts IH]; intros H; [reflexivity|].
  rewrite fmap_cons. unfold releases in *. simpl.
  rewrite IH by (intros u Hu; apply H; right; exact Hu).
  unfold at_handle. case_decide as Hx; [|reflexivity].
  rewrite (H x (list_elem_of_here x ts) Hx). reflexivity.
Qed.

Lemma releases_clear ts t :
  NoDup (tid <$> ts) → t ∈ ts →
  (releases (filter (λ u, tid u ≠ tid t) ts) + (if is_release t then 1 else 0)
   = releases ts)%nat.
Proof.
  intros Hnd Ht.
  apply (sum_clear (λ u, if is_release u then 1%nat else 0%nat) ts t Hnd Ht).
Qed.

(** What a callback does to the count of retained arrays. *)
Lemma fire_retained t w :
  retained (fire t w)
  = match cb t with
    | OverloadTick => retained w + 100000
    | ReleaseWaste => retained w - 100000
    | _ => retained w
    end%Z.
Proof.
  unfold fire, run_callback.
  destruct (every t), (cb t); try reflexivity; unfold crash_tick; case_decide; reflexivity.
Qed.

Lemma fire_timeout_timers t w :
  every t = None → (∀ c, cb t ≠ CrashTick c) → cb t ≠ OverloadTick →
  timers (fire t w) = filter (λ u, tid u ≠ tid t) (timers w).
Proof.
  intros Hev Hc Ho. unfold fire, run_callback. rewrite Hev.
  destruct (cb t); try reflexivity; [exfalso; eapply Hc; reflexivity | congruence].
Qed.

(** Every callback keeps the count of retained arrays in step with the
    release timeouts that are pending. *)
Lemma memory_fire t w :
  wf w → t ∈ timers w → memory_accounted w → memory_accounted (fire t w).
Proof.
  intros (Hnd & Hfr & Hok & Hst) Ht Hm. unfold memory_accounted in *.
  assert (Hokt : timer_ok t) by (rewrite Forall_forall in Hok; apply Hok, Ht).
  assert (Hlt : (tid t < next_id w)%nat) by (rewrite Forall_forall in Hfr; apply Hfr, Ht).
  pose proof (releases_clear (timers w) t Hnd Ht) as Hclr.
  assert (Hsame : ∀ (k : timer → timer),
             (∀ u, tid (k u) = tid u) → is_release (k t) = is_release t →
             releases (at_handle (tid t) k <$> timers w) = releases (timers w)).
  { intros k Hk Hr. apply releases_at_handle. intros u Hu Hid.
    assert (u = t) by (apply (tid_unique (timers w)); assumption). subst u. exact Hr. }
  rewrite fire_retained. unfold timer_ok, registered_ok in Hokt.
  unfold is_release in Hclr, Hsame.
  destruct (cb t) eqn:Hcb.
  - destruct Hokt as [Hev Hc].
    destruct (decide (1 < countdown)%Z) as [Hmore|Hlast].
    + destruct (fire_tick_more t countdown w Hcb Hev Hmore) as (_ & _ & _ & _ & H5).
      rewrite H5, Hsame; [exact Hm | reflexivity | simpl; rewrite ?Hcb; reflexivity].
    + destruct (fire_tick_last t countdown w Hcb Hev ltac:(lia) Hlt) as (_ & _ & _ & _ & H5).
      rewrite H5, releases_app. change (releases (escalation _ _)) with 0%nat. lia.
  - rewrite fire_timeout_timers; [lia | exact Hokt | congruence | congruence].
  - rewrite fire_timeout_timers; [lia | exact Hokt | congruence | congruence].
  - rewrite fire_timeout_timers; [lia | exact Hokt | congruence | congruence].
  - destruct (fire_overload t w Hcb Hokt Hlt) as (_ & H5).
    rewrite H5, releases_app, Hsame; [| reflexivity | simpl; rewrite ?Hcb; reflexivity].
    change (releases [_]) with 1%nat. lia.
  - rewrite fire_timeout_timers; [lia | exact Hokt | congruence | congruence].
Qed.

Lemma memory_step (a : action) w :
  wf w → memory_accounted w → memory_accounted (step a w).
Proof.
  intros Hwf Hm. unfold step. destruct (proc w); try exact Hm.
  destruct a as [e | rq p be | h | ms | sg].
  - destruct e; simpl.
    + unfold health. destruct (negb _); exact Hm.
    + unfold memory_accounted in *. simpl. rewrite releases_app.
      change (releases [_]) with 0%nat. lia.
    + exact Hm.
    + unfold start_overload. destruct (overloadInterval w); [exact Hm|].
      unfold memory_accounted in *. simpl. rewrite releases_app.
      change (releases [_]) with 0%nat. lia.
    + unfold stop_overload. destruct (overloadInterval w) as [h|] eqn:E; [|exact Hm].
      destruct (wf_handle_live w h Hwf E) as (t & Ht & Hid & Hcb & _).
      destruct Hwf as (Hnd & _).
      pose proof (releases_clear (timers w) t Hnd Ht) as Hclr.
      unfold is_release in Hclr. rewrite Hcb, Hid in Hclr.
      unfold memory_accounted in *. simpl. lia.
    + exact Hm.
  - unfold forward; simpl. destruct (be _); exact Hm.
  - destruct (find_timer h (timers w)) as [t|] eqn:E; [|exact Hm].
    apply memory_fire; [exact Hwf | apply (find_timer_some h), E | exact Hm].
  - exact Hm.
  - exact Hm.
Qed.

Lemma memory_run (acts : list action) w :
  wf w → memory_accounted w → memory_accounted (run acts w).
Proof.
  revert w. induction acts as [|a acts IH]; intros w Hwf Hm; [exact Hm|].
  rewrite run_cons. apply IH; [apply wf_step, Hwf | apply memory_step; assumption].
Qed.

Lemma memory_run_loop (n : nat) w :
  wf w → memory_accounted w → memory_accounted (run_loop n w).
Proof.
  revert w. induction n as [|n IH]; intros w Hwf Hm; [exact Hm|].
  simpl. apply IH; [apply wf_loop_step, Hwf|].
  unfold loop_step. destruct (proc w); try exact Hm.
  destruct (next_timer (timers w)) as [t|] eqn:E; [|exact Hm].
  apply memory_fire; [exact Hwf | apply next_timer_elem, E | exact Hm].
Qed.
End Memory.

(** X1.  After every run from the initial state, the element arrays the
    stress cycle still holds are exactly 100000 for each release timeout that
    is pending: a cycle's arrays are never released twice, never kept after
    their timeout has run, and the count is never negative. *)
Theorem retained_memory_accounted (url : option string) (t0 : Z) (acts : list action) :
  let w := run acts (init_world url t0) in
  retained w = (100000 * Z.of_nat (releases (timers w)))%Z ∧
  (0 ≤ retained w)%Z ∧
  (releases (timers w) = 0%nat → retained w = 0).
Proof.
  intros w.
  assert (Hm : memory_accounted w) by (apply memory_run; [apply wf_init | reflexivity]).
  unfold memory_accounted in Hm. repeat split; try exact Hm; lia.
Qed.

(** ** Stopping the stress cycle, lines 168-179 *)

Section StopOverload.
Implicit Types (w : World) (t u : timer) (h : nat) (ts : list timer).

Lemma length_clear ts t :
  NoDup (tid <$> ts) → t ∈ ts →
  (length (filter (λ u, tid u ≠ tid t) ts) + 1 = length ts)%nat.
Proof.
  intros Hnd Ht. pose proof (sum_clear (λ _, 1%nat) ts t Hnd Ht) as H.
  assert (Hlen : ∀ l : list timer, sum_list_with (λ _, 1%nat) l = length l).
  { induction l as [|x l IH]; simpl; [reflexivity | rewrite IH; reflexivity]. }
  rewrite !Hlen in H. exact H.
Qed.

Lemma stop_overload_some w h :
  overloadInterval w = Some h →
  stop_overload w
  = (emit (Sent (res_json [("message", JStr "Frontend server overload stopped");
                           ("overloaded", JBool false);
                           ("timestamp", JDate (now w))]))
       (emit (Log "✅ Frontend server overload stopped")
          (set_overloaded false (set_interval_var None (clearInterval h w)))),
     res_json [("message", JStr "Frontend server overload stopped");
               ("overloaded", JBool false);
               ("timestamp", JDate (now w))]).
Proof. intros H. unfold stop_overload. rewrite H. reflexivity. Qed.
End StopOverload.

(** X2.  After every run from the initial state that leaves a stress cycle
    active, stop-overload answers 200 with [{message, overloaded: false,
    timestamp}], sets [serverOverloaded] to false and [overloadInterval] to
    null, and clears exactly one timer, the stress interval: no stress
    interval is live afterwards, its handle is gone, and every other timer
    (crash countdowns, termination timeouts, pending releases) stays live.
    [serverHealthy] and the retained arrays are untouched. *)
Theorem stop_overload_active (url : option string) (t0 : Z) (acts : list action) (h : nat) :
  overloadInterval (run acts (init_world url t0)) = Some h →
  let w := run acts (init_world url t0) in
  let w' := fst (stop_overload w) in
  let r := snd (stop_overload w) in
  (status r = 200 ∧ keys (body r) = ["message"; "overloaded"; "timestamp"] ∧
   field "overloaded" (body r) = Some (JBool false)) ∧
  (serverOverloaded w' = false ∧ overloadInterval w' = None ∧
   serverHealthy w' = serverHealthy w ∧ retained w' = retained w) ∧
  stress_timers w' = 0%nat ∧
  (length (timers w') + 1 = length (timers w))%nat ∧
  (∀ t, t ∈ timers w' → tid t ≠ h ∧ t ∈ timers w) ∧
  (∀ t, t ∈ timers w → cb t ≠ OverloadTick → t ∈ timers w').
Proof.
  intros Hh w w' r.
  assert (Hwf : wf w) by (apply wf_run, wf_init).
  assert (Hwf' : wf w') by (apply (wf_handle_endpoint StopOverload), Hwf).
  destruct (wf_handle_live w h Hwf Hh) as (s & Hs & Hid & Hcb & _).
  unfold w', r. rewrite (stop_overload_some w h Hh). simpl.
  split; [repeat split|]. split; [repeat split|].
  split; [|split; [|split]].
  - pose proof (wf_stress_count w' Hwf') as Hc.
    unfold w' in Hc. rewrite (stop_overload_some w h Hh) in Hc. exact Hc.
  - rewrite <- Hid. apply length_clear; [apply Hwf | exact Hs].
  - intros t Ht. apply (list_elem_of_filter (λ u, tid u ≠ h)) in Ht. exact Ht.
  - intros t Ht Hne. apply (list_elem_of_filter (λ u, tid u ≠ h)). split; [|exact Ht].
    intros Heq. apply Hne.
    assert (t = s) by (apply (tid_unique (timers w)); [apply Hwf | | | congruence]; assumption).
    subst t. exact Hcb.
Qed.

(** [stop_overload_active] after a start-overload request, a stress callback
    and a crash request. *)
Lemma stop_overload_active_witness :
  overloadInterval (run [Call StartOverload; Fire 0; Call Crash] (init_world None 0))
  = Some 0%nat ∧
  stress_timers (fst (stop_overload
                        (run [Call StartOverload; Fire 0; Call Crash] (init_world None 0))))
  = 0%nat.
Proof.
  split; [reflexivity|].
  apply (stop_overload_active None 0 [Call StartOverload; Fire 0; Call Crash] 0).
  reflexivity.
Defined.

(** X3.  After every run from the initial state that leaves no stress cycle
    active, start-overload followed by stop-overload brings back the
    lifecycle variables and the timer queue as they were; only a timer handle
    is used up. *)
Theorem start_stop_round_trip (url : option string) (t0 : Z) (acts : list action) :
  overloadInterval (run acts (init_world url t0)) = None →
  let w := run acts (init_world url t0) in
  let w2 := fst (stop_overload (fst (start_overload w))) in
  lifecycle w2 = lifecycle w ∧ timers w2 = timers w ∧
  retained w2 = retained w ∧ now w2 = now w ∧ proc w2 = proc w ∧
  next_id w2 = S (next_id w).
Proof.
  intros Hn w w2.
  assert (Hwf : wf w) by (apply wf_run, wf_init).
  pose proof (run_handle_invariant url t0 acts) as Hinv. fold w in Hinv, Hn.
  unfold handle_invariant in Hinv. rewrite Hn in Hinv. simpl in Hinv.
  unfold w2, start_overload. rewrite Hn. simpl.
  unfold stop_overload. simpl.
  split; [unfold lifecycle; simpl; rewrite Hinv, Hn; reflexivity|].
  split; [|repeat split].
  rewrite filter_app, filter_cons, decide_False by (intros H; apply H; reflexivity).
  rewrite filter_nil, app_nil_r. apply filter_absent.
  destruct Hwf as (_ & Hfr & _). eapply Forall_impl; [exact Hfr|].
  intros t Ht. simpl in *. lia.
Qed.

(** [start_stop_round_trip] after a run that has already started and stopped
    a cycle once. *)
Lemma start_stop_round_trip_witness :
  overloadInterval (run [Call StartOverload; Fire 0; Call StopOverload; Call ToggleHealth]
                      (init_world None 0)) = None ∧
  timers (fst (stop_overload (fst (start_overload
            (run [Call StartOverload; Fire 0; Call StopOverload; Call ToggleHealth]
               (init_world None 0))))))
  = timers (run [Call StartOverload; Fire 0; Call StopOverload; Call ToggleHealth]
              (init_world None 0)).
Proof.
  split; [reflexivity|].
  apply (start_stop_round_trip None 0
           [Call StartOverload; Fire 0; Call StopOverload; Call ToggleHealth]).
  reflexivity.
Defined.

(** ** What can end the process, lines 95-118 and 252-260 *)

Section Causes.
Implicit Types (w : World) (t u : timer) (h : nat) (ts : list timer).

Lemma pending_filter_le (P : timer → Prop) `{∀ x, Decision (P x)} ts :
  (pending (filter P ts) ≤ pending ts)%nat.
Proof.
  induction ts as [|x ts IH]; [reflexivity|].
  rewrite filter_cons. unfold pending in *. destruct (decide (P x)); simpl; lia.
Qed.

Lemma pending_with_due h (d : Z) ts :
  pending (at_handle h (with_due d) <$> ts) = pending ts.
Proof.
  induction ts as [|x ts IH]; [reflexivity|].
  rewrite fmap_cons. unfold pending in *. simpl. rewrite IH.
  unfold at_handle. case_decide; reflexivity.
Qed.

Lemma handle_proc (e : endpoint) w : proc (fst (handle e w)) = proc w.
Proof.
  destruct e; simpl; try reflexivity.
  - unfold health. destruct (negb _); reflexivity.
  - unfold start_overload. destruct (overloadInterval w); reflexivity.
  - unfold stop_overload. destruct (overloadInterval w); reflexivity.
Qed.

(** A timer in a queue without callbacks of the crash handler is a stress
    interval or a release timeout. *)
Lemma quiet_timer ts t :
  pending ts = 0%nat → t ∈ ts → cb t = OverloadTick ∨ cb t = ReleaseWaste.
Proof.
  intros Hp Ht. pose proof (sum_list_with_in t pot ts Ht) as Hle.
  unfold pending in Hp. rewrite Hp in Hle. unfold pot in Hle.
  destruct (cb t); auto; simpl in Hle; lia.
Qed.

(** Running a stress or release callback neither ends the process nor
    schedules a callback of the crash handler. *)
Lemma fire_quiet t w :
  wf w → t ∈ timers w → pending (timers w) = 0%nat →
  proc (fire t w) = proc w ∧ pending (timers (fire t w)) = 0%nat.
Proof.
  intros Hwf Ht Hp. destruct (quiet_timer _ _ Hp Ht) as [Hcb|Hcb].
  - destruct Hwf as (_ & Hfr & Hok & _).
    assert (Hokt : timer_ok t) by (rewrite Forall_forall in Hok; apply Hok, Ht).
    assert (Hlt : (tid t < next_id w)%nat) by (rewrite Forall_forall in Hfr; apply Hfr, Ht).
    unfold timer_ok in Hokt. rewrite Hcb in Hokt.
    destruct (fire_overload t w Hcb Hokt Hlt) as (H1 & H5).
    split; [exact H1|]. rewrite H5. unfold pending in *.
    rewrite sum_list_with_app. fold (pending (at_handle (tid t)
      (with_due (Z.max (now w) (due t) + 100)) <$> timers w)).
    rewrite pending_with_due. unfold pending. rewrite Hp. reflexivity.
  - destruct Hwf as (_ & _ & Hok & _).
    assert (Hokt : timer_ok t) by (rewrite Forall_forall in Hok; apply Hok, Ht).
    unfold timer_ok in Hokt. rewrite Hcb in Hokt.
    destruct (fire_release t w Hcb Hokt) as (H1 & H5).
    split; [exact H1|]. rewrite H5.
    pose proof (pending_filter_le (λ u, tid u ≠ tid t) (timers w)). lia.
Qed.

(** Without a crash request nothing schedules a callback of the crash
    handler. *)
Lemma step_stays_quiet (a : action) w :
  wf w → is_crash_call a = false → pending (timers w) = 0%nat →
  pending (timers (step a w)) = 0%nat.
Proof.
  intros Hwf Ha Hp. unfold step. destruct (proc w); try exact Hp.
  destruct a as [e | rq p be | h | ms | sg].
  - destruct e; simpl; try exact Hp; try discriminate.
    + unfold health. destruct (negb _); exact Hp.
    + unfold start_overload. destruct (overloadInterval w); [exact Hp|].
      simpl. unfold pending in *. rewrite sum_list_with_app, Hp. reflexivity.
    + unfold stop_overload. destruct (overloadInterval w) as [h|]; [|exact Hp].
      simpl. pose proof (pending_filter_le (λ u, tid u ≠ h) (timers w)). lia.
  - unfold forward; simpl. destruct (be _); exact Hp.
  - destruct (find_timer h (timers w)) as [t|] eqn:E; [|exact Hp].
    apply fire_quiet; [exact Hwf | apply (find_timer_some h), E | exact Hp].
  - exact Hp.
  - exact Hp.
Qed.

Lemma crash_requested_snoc (acts : list action) (a : action) :
  crash_requested (acts ++ [a]) = crash_requested acts || is_crash_call a.
Proof. unfold crash_requested. rewrite existsb_app. simpl. rewrite orb_false_r. reflexivity. Qed.

Lemma signalled_snoc (acts : list action) (a : action) :
  signalled (acts ++ [a]) = signalled acts || is_signal a.
Proof. unfold signalled. rewrite existsb_app. simpl. rewrite orb_false_r. reflexivity. Qed.

Lemma run_stays_quiet url (t0 : Z) (acts : list action) :
  crash_requested acts = false →
  pending (timers (run acts (init_world url t0))) = 0%nat.
Proof.
  induction acts as [|a acts IH] using rev_ind; intros Hc; [reflexivity|].
  rewrite crash_requested_snoc in Hc. apply orb_false_elim in Hc. destruct Hc as [Hc Ha].
  rewrite run_snoc. apply step_stays_quiet; [apply wf_run, wf_init | exact Ha | apply IH, Hc].
Qed.

(** How one step can change the process status. *)
Lemma step_proc (a : action) w :
  wf w → proc w = Running →
  proc (step a w) = Running
  ∨ (proc (step a w) = Exited 0 ∧ is_signal a = true)
  ∨ (ended_by_crash (proc (step a w)) ∧ (0 < pending (timers w))%nat).
Proof.
  intros Hwf Hp. unfold step. rewrite Hp.
  destruct a as [e | rq p be | h | ms | sg].
  - left. rewrite handle_proc. exact Hp.
  - left. unfold forward; simpl. destruct (be _); exact Hp.
  - destruct (find_timer h (timers w)) as [t|] eqn:E; [|left; exact Hp].
    apply find_timer_some in E. destruct E as [Ht _].
    destruct (decide (pending (timers w) = 0%nat)) as [Hq|Hq].
    + left. destruct (fire_quiet t w Hwf Ht Hq) as [H1 _]. congruence.
    + destruct Hwf as (_ & Hfr & Hok & _).
      assert (Hokt : timer_ok t) by (rewrite Forall_forall in Hok; apply Hok, Ht).
      assert (Hlt : (tid t < next_id w)%nat) by (rewrite Forall_forall in Hfr; apply Hfr, Ht).
      unfold timer_ok, registered_ok in Hokt.
      destruct (cb t) eqn:Hcb.
      * left. destruct Hokt as [Hev Hc].
        destruct (decide (1 < countdown)%Z) as [Hmore|Hlast].
        -- destruct (fire_tick_more t countdown w Hcb Hev Hmore) as (H1 & _). congruence.
        -- destruct (fire_tick_last t countdown w Hcb Hev ltac:(lia) Hlt) as (H1 & _). congruence.
      * right. right. split; [|lia]. left. apply (fire_termination t w Hokt), Hcb.
      * right. right. split; [|lia]. right. left. apply (fire_termination t w Hokt), Hcb.
      * right. right. split; [|lia]. right. right. apply (fire_termination t w Hokt), Hcb.
      * left. destruct (fire_overload t w Hcb Hokt Hlt) as (H1 & _). congruence.
      * left. destruct (fire_release t w Hcb Hokt) as (H1 & _). congruence.
  - left. exact Hp.
  - right. left. split; reflexivity.
Qed.

Lemma run_causes url (t0 : Z) (acts : list action) :
  proc (run acts (init_world url t0)) = Running
  ∨ (proc (run acts (init_world url t0)) = Exited 0 ∧ signalled acts = true)
  ∨ (ended_by_crash (proc (run acts (init_world url t0))) ∧ crash_requested acts = true).
Proof.
  induction acts as [|a acts IH] using rev_ind; [left; reflexivity|].
  rewrite run_snoc, signalled_snoc, crash_requested_snoc.
  destruct IH as [Hp | [[Hp Hs] | [Hp Hc]]].
  - destruct (step_proc a _ (wf_run acts _ (wf_init url t0)) Hp) as [H | [[H Hs] | [H Hq]]].
    + left. exact H.
    + right. left. split; [exact H | rewrite Hs; apply orb_true_r].
    + right. right. split; [exact H|].
      destruct (crash_requested acts) eqn:Hc; [reflexivity|].
      rewrite (run_stays_quiet url t0 acts Hc) in Hq. lia.
  - right. left. rewrite step_dead by (rewrite Hp; discriminate).
    split; [exact Hp | rewrite Hs; reflexivity].
  - right. right. rewrite step_dead by (apply ended_not_running, Hp).
    split; [exact Hp | rewrite Hc; reflexivity].
Qed.
End Causes.

(** X4.  After every run from the initial state the process is running, or
    it has exited with code 0 and a SIGTERM or SIGINT was delivered, or it
    was ended by a termination timeout of the crash handler ([exit(1)], the
    thrown error or SIGKILL) and /admin/crash was requested.  So toggling
    health, starting and stopping the stress cycle, status and health reads,
    proxied requests and the stress callbacks never end the process. *)
Theorem termination_causes (url : option string) (t0 : Z) (acts : list action) :
  let w := run acts (init_world url t0) in
  (proc w = Running
   ∨ (proc w = Exited 0 ∧ signalled acts = true)
   ∨ (ended_by_crash (proc w) ∧ crash_requested acts = true)) ∧
  (crash_requested acts = false → signalled acts = false → proc w = Running).
Proof.
  intros w. pose proof (run_causes url t0 acts) as H. fold w in H.
  split; [exact H|].
  intros Hc Hs. destruct H as [Hp | [[_ Hs'] | [_ Hc']]]; [exact Hp | congruence ..].
Qed.

(** ** After the stress cycle is stopped, lines 140-179 *)

Section Drain.
Implicit Types (w : World) (t u : timer) (h : nat) (ts : list timer).

(** A queue of release timeouts empties in as many turns as it is long. *)
Lemma drain (n : nat) :
  ∀ w, wf w → proc w = Running →
       Forall (λ t, cb t = ReleaseWaste) (timers w) → length (timers w) = n →
       timers (run_loop n w) = [] ∧ proc (run_loop n w) = Running.
Proof.
  induction n as [|n IH]; intros w Hwf Hp Hall Hlen.
  - apply nil_length_inv in Hlen. split; assumption.
  - destruct (next_timer (timers w)) as [t|] eqn:E;
      [|apply next_timer_none in E; rewrite E in Hlen; discriminate].
    pose proof (next_timer_elem _ _ E) as Ht.
    assert (Hcb : cb t = ReleaseWaste) by (rewrite Forall_forall in Hall; apply Hall, Ht).
    assert (Hev : every t = None).
    { destruct Hwf as (_ & _ & Hok & _). rewrite Forall_forall in Hok.
      specialize (Hok t Ht). unfold timer_ok in Hok. rewrite Hcb in Hok. exact Hok. }
    destruct (fire_release t w Hcb Hev) as (H1 & H5).
    assert (Hstep : loop_step w = fire t w) by (unfold loop_step; rewrite Hp, E; reflexivity).
    simpl. rewrite Hstep. apply IH.
    + rewrite <- Hstep. apply wf_loop_step, Hwf.
    + congruence.
    + rewrite H5. apply Forall_cleared, Hall.
    + rewrite H5. pose proof (length_clear (timers w) t (proj1 Hwf) Ht). lia.
Qed.

Lemma stop_overload_clears_var w : overloadInterval (fst (stop_overload w)) = None.
Proof. unfold stop_overload. destruct (overloadInterval w) eqn:E; simpl; [reflexivity | exact E]. Qed.
End Drain.

(** X5.  After every run from the initial state without a crash request
    that leaves the process running, stop-overload is followed by finitely
    many turns of the event loop, one for each timer still queued, after
    which no timer is left, no element array is retained and the process is
    running with [serverOverloaded] false and [overloadInterval] null: the
    load ends and its memory is given back. *)
Theorem overload_drains (url : option string) (t0 : Z) (acts : list action) :
  crash_requested acts = false →
  proc (run acts (init_world url t0)) = Running →
  let w := run acts (init_world url t0) in
  let w' := fst (stop_overload w) in
  let w'' := run_loop (length (timers w')) w' in
  timers w'' = [] ∧ retained w'' = 0 ∧ proc w'' = Running ∧
  lifecycle w'' = (serverHealthy w, false, None).
Proof.
  intros Hc Hp w w' w''.
  assert (Hwf : wf w) by (apply wf_run, wf_init).
  assert (Hstep : w' = step (Call StopOverload) w) by (unfold w', step, w; rewrite Hp; reflexivity).
  assert (Hwf' : wf w') by (rewrite Hstep; apply wf_step, Hwf).
  assert (Hq : pending (timers w') = 0%nat).
  { rewrite Hstep. apply step_stays_quiet; [exact Hwf | reflexivity | apply run_stays_quiet, Hc]. }
  assert (Hm : memory_accounted w').
  { rewrite Hstep. apply memory_step; [exact Hwf|].
    apply memory_run; [apply wf_init | reflexivity]. }
  assert (Hv : overloadInterval w' = None) by apply stop_overload_clears_var.
  assert (Hp' : proc w' = Running) by (unfold w'; rewrite (handle_proc StopOverload); exact Hp).
  assert (Hall : Forall (λ t, cb t = ReleaseWaste) (timers w')).
  { apply Forall_forall. intros t Ht.
    destruct (quiet_timer _ _ Hq Ht) as [Hcb|Hcb]; [|exact Hcb].
    exfalso. destruct Hwf' as (_ & _ & _ & Hst). rewrite Hv in Hst. simpl in Hst.
    apply fmap_nil_inv in Hst.
    assert (Hin : t ∈ stress (timers w')).
    { apply stress_elem. split; [unfold is_stress; rewrite Hcb; reflexivity | exact Ht]. }
    rewrite Hst in Hin. inversion Hin. }
  destruct (drain _ w' Hwf' Hp' Hall eq_refl) as (Ht & Hr). fold w'' in Ht, Hr.
  assert (Hm'' : memory_accounted w'') by (apply memory_run_loop; assumption).
  unfold memory_accounted in Hm''. rewrite Ht in Hm''.
  split; [exact Ht|]. split; [exact Hm''|]. split; [exact Hr|].
  unfold w''. rewrite run_loop_lifecycle.
  pose proof (run_handle_invariant url t0 acts) as Hinv. fold w in Hinv.
  unfold handle_invariant in Hinv.
  unfold w', stop_overload. destruct (overloadInterval w) eqn:E; [reflexivity|].
  simpl in Hinv. unfold lifecycle. simpl. rewrite Hinv, E. reflexivity.
Qed.

(** [overload_drains] after two stress cycles have completed. *)
Lemma overload_drains_witness :
  crash_requested [Call StartOverload; Fire 0; Fire 0; Call ToggleHealth] = false ∧
  proc (run [Call StartOverload; Fire 0; Fire 0; Call ToggleHealth] (init_world None 0))
  = Running ∧
  retained (run [Call StartOverload; Fire 0; Fire 0; Call ToggleHealth] (init_world None 0))
  = 200000 ∧
  retained (run_loop 2 (fst (stop_overload
              (run [Call StartOverload; Fire 0; Fire 0; Call ToggleHealth]
                 (init_world None 0))))) = 0.
Proof.
  split; [reflexivity|]. split; [reflexivity|]. split; [reflexivity|].
  apply (overload_drains None 0 [Call StartOverload; Fire 0; Fire 0; Call ToggleHealth]);
    reflexivity.
Defined.

(** ** The status route, lines 186-195 *)

(** X6.  After every run from the initial state, /admin/status answers 200
    with the fields healthy, overloaded, timestamp, uptime, memory and cpu;
    [healthy] is the current [serverHealthy]; [overloaded] is true exactly
    when one stress interval is live and false exactly when none is; a 200
    answer of /health carries the same [overloaded]; and the route changes
    nothing but the trace. *)
Theorem status_reflects (url : option string) (t0 : Z) (acts : list action) :
  let w := run acts (init_world url t0) in
  let r := snd (admin_status w) in
  status r = 200 ∧
  keys (body r) = ["healthy"; "overloaded"; "timestamp"; "uptime"; "memory"; "cpu"] ∧
  field "healthy" (body r) = Some (JBool (serverHealthy w)) ∧
  (field "overloaded" (body r) = Some (JBool true) ↔ stress_timers w = 1%nat) ∧
  (field "overloaded" (body r) = Some (JBool false) ↔ stress_timers w = 0%nat) ∧
  (status (snd (health w)) = 200 →
     field "overloaded" (body (snd (health w))) = field "overloaded" (body r)) ∧
  fst (admin_status w) = emit (Sent r) w.
Proof.
  intros w r.
  assert (Hwf : wf w) by (apply wf_run, wf_init).
  pose proof (run_handle_invariant url t0 acts) as Hinv. fold w in Hinv.
  unfold handle_invariant in Hinv.
  pose proof (wf_stress_count w Hwf) as Hc.
  split; [reflexivity|]. split; [reflexivity|]. split; [reflexivity|].
  assert (Hf : field "overloaded" (body r) = Some (JBool (serverOverloaded w))) by reflexivity.
  rewrite Hf, Hc, Hinv.
  split; [|split; [|split; [|reflexivity]]].
  - destruct (overloadInterval w); simpl; split; intros H; try reflexivity; discriminate.
  - destruct (overloadInterval w); simpl; split; intros H; try reflexivity; discriminate.
  - unfold health. destruct (serverHealthy w); simpl; [|discriminate].
    intros _. rewrite Hinv. reflexivity.
Qed.

(** ** The backend address, line 13 *)

Lemma fire_backend_url (t : timer) (w : World) : BACKEND_URL (fire t w) = BACKEND_URL w.
Proof.
  unfold fire, run_callback.
  destruct (every t), (cb t); try reflexivity; unfold crash_tick; case_decide; reflexivity.
Qed.

Lemma step_backend_url (a : action) (w : World) : BACKEND_URL (step a w) = BACKEND_URL w.
Proof.
  unfold step. destruct (proc w); try reflexivity.
  destruct a as [e | rq p be | h | ms | sg]; try reflexivity.
  - destruct e; simpl; try reflexivity.
    + unfold health. destruct (negb _); reflexivity.
    + unfold start_overload. destruct (overloadInterval w); reflexivity.
    + unfold stop_overload. destruct (overloadInterval w); reflexivity.
  - unfold forward; simpl. destruct (be _); reflexivity.
  - destruct (find_timer h (timers w)); [apply fire_backend_url | reflexivity].
Qed.

(** X7.  The backend address is fixed at start-up and never changes: it is
    the environment's BACKEND_API_URL when that is set and not empty, and
    http://localhost:8080 when it is unset or empty.  So the address the
    proxy logs and reports is never the empty string. *)
Theorem backend_url_fixed (url : option string) (t0 : Z) (acts : list action) :
  let target := BACKEND_URL (run acts (init_world url t0)) in
  target = or_default url "http://localhost:8080" ∧
  String.eqb target "" = false ∧
  (url = None ∨ url = Some "" → target = "http://localhost:8080") ∧
  (∀ s, url = Some s → String.eqb s "" = false → target = s).
Proof.
  intros target.
  assert (H : target = or_default url "http://localhost:8080").
  { unfold target. induction acts as [|a acts IH] using rev_ind; [reflexivity|].
    rewrite run_snoc, step_backend_url. exact IH. }
  split; [exact H|]. rewrite H. split; [|split].
  - destruct url as [s|]; simpl; [|reflexivity].
    destruct (String.eqb s "") eqn:E; [reflexivity | exact E].
  - intros [-> | ->]; reflexivity.
  - intros s -> Hs. simpl. rewrite Hs. reflexivity.
Qed.

(** ** Headers of the outbound request, lines 222-227 *)

(** X8.  Whatever X-Real-IP and X-Forwarded-Proto headers the outbound
    request already carries, under any spelling of upper and lower case,
    [onProxyReq] replaces them: read back under any spelling, X-Real-IP is
    the client address the gateway saw and X-Forwarded-Proto is http.
    Running the hook again changes nothing. *)
Theorem onProxyReq_overrides (prepared : ProxyReq) (rq : Req) (w : World) (name : string) :
  let out := snd (onProxyReq prepared rq w) in
  (lower name = "x-real-ip" → getHeader name out = Some (ip rq)) ∧
  (lower name = "x-forwarded-proto" → getHeader name out = Some "http") ∧
  snd (onProxyReq out rq w) = out.
Proof.
  intros out. unfold out, onProxyReq, getHeader, setHeader.
  cbn [snd preq_headers preq_method preq_path].
  change (lower "X-Real-IP") with "x-real-ip".
  change (lower "X-Forwarded-Proto") with "x-forwarded-proto".
  split; [|split].
  - intros ->. apply lookup_insert_eq.
  - intros ->. rewrite lookup_insert_ne by discriminate. apply lookup_insert_eq.
  - f_equal. apply map_eq. intros k.
    destruct (decide (k = "x-real-ip")) as [->|H1].
    + rewrite !lookup_insert_eq. reflexivity.
    + assert (H1' : "x-real-ip" ≠ k) by (intros Heq; apply H1; symmetry; exact Heq).
      rewrite !(lookup_insert_ne _ "x-real-ip") by exact H1'.
      destruct (decide (k = "x-forwarded-proto")) as [->|H2].
      * rewrite !lookup_insert_eq. reflexivity.
      * assert (H2' : "x-forwarded-proto" ≠ k) by (intros Heq; apply H2; symmetry; exact Heq).
        repeat (rewrite lookup_insert_ne by (exact H1' || exact H2')). reflexivity.
Qed.

(** ** What the client of the proxy route gets, lines 198-235 *)

(** The three hardening headers in the table written to the client. *)
Lemma hardened_lookups (p : ProxyRes) (rq : Req) (w : World) :
  Forall (λ kv, lower (fst kv) = fst kv) (headers p) →
  let hs := write_headers (headers (snd (onProxyRes p rq w))) in
  hs !! "x-content-type-options" = Some "nosniff" ∧
  hs !! "x-frame-options" = Some "DENY" ∧
  hs !! "x-xss-protection" = Some "1; mode=block".
Proof.
  intros Hall hs. unfold hs. rewrite (write_headers_hardened p rq w Hall).
  split; [|split].
  - rewrite !lookup_insert_ne by discriminate. apply lookup_insert_eq.
  - rewrite lookup_insert_ne by discriminate. apply lookup_insert_eq.
  - apply lookup_insert_eq.
Qed.

(** X9.  What the client of a proxied request has when the exchange is over.
    The backend sees the request [onProxyReq] prepared.  No headers are sent
    exactly when the client connection timed out before the backend
    answered, and then nothing is written at all.  The JSON error answer is
    only ever sent for a backend that failed before responding, and it is
    the 500 answer with the backend address and the request path.  Every
    answer relayed from the backend has the backend's status code; it is
    whole exactly when the backend responded in full, and cut short when the
    backend broke off or the connection timed out under way; for backend
    headers as the runtime hands them over, it carries the three hardening
    headers. *)
Theorem forward_answers (rq : Req) (prepared : ProxyReq)
    (backend : ProxyReq → backend_outcome) (w : World) :
  let out := fst (snd (forward rq prepared backend w)) in
  let res := snd (snd (forward rq prepared backend w)) in
  out = snd (onProxyReq prepared rq w) ∧
  (headersSent res = false ↔ backend out = TimesOut) ∧
  (backend out = TimesOut →
     res = {| headersSent := false; res_status := 200; sent := Nothing |}) ∧
  (∀ o, sent res = JsonBody o →
     (∃ e, backend out = Fails e) ∧ res = unavailable (BACKEND_URL w) (path rq)) ∧
  (∀ hs bytes complete, sent res = Relayed hs bytes complete →
     ∃ p, res_status res = statusCode p ∧ headersSent res = true ∧
          ((backend out = Responds p ∧ bytes = payload p ∧ complete = true)
           ∨ (∃ e, backend out = Breaks p bytes e ∧ complete = false)
           ∨ (backend out = Stalls p bytes ∧ complete = false)) ∧
          (as_received (headers p) →
             hs !! "x-content-type-options" = Some "nosniff" ∧
             hs !! "x-frame-options" = Some "DENY" ∧
             hs !! "x-xss-protection" = Some "1; mode=block")).
Proof.
  intros out res. unfold out, res, forward. simpl.
  destruct (backend _) as [p | e | p got e | | p got] eqn:E; simpl.
  - split; [reflexivity|]. split; [split; [discriminate | congruence]|]. split; [congruence|].
    split; [intros o H; discriminate|].
    intros hs bytes complete H. injection H as <- <- <-.
    exists p. split; [reflexivity|]. split; [reflexivity|].
    split; [left; repeat split; exact E|].
    intros [Hall _]. apply (hardened_lookups p rq w Hall).
  - split; [reflexivity|]. split; [split; [discriminate | congruence]|]. split; [congruence|].
    split; [|intros hs bytes complete H; discriminate].
    intros o _. split; [exists e; exact E | reflexivity].
  - split; [reflexivity|]. split; [split; [discriminate | congruence]|]. split; [congruence|].
    split; [intros o H; discriminate|].
    intros hs bytes complete H. injection H as <- <- <-.
    exists p. split; [reflexivity|]. split; [reflexivity|].
    split; [right; left; exists e; split; [exact E | reflexivity]|].
    intros [Hall _]. apply (hardened_lookups p rq w Hall).
  - split; [reflexivity|]. split; [split; [intros _; exact E | reflexivity]|].
    split; [reflexivity|].
    split; [intros o H; discriminate | intros hs bytes complete H; discriminate].
  - split; [reflexivity|]. split; [split; [discriminate | congruence]|]. split; [congruence|].
    split; [intros o H; discriminate|].
    intros hs bytes complete H. injection H as <- <- <-.
    exists p. split; [reflexivity|]. split; [reflexivity|].
    split; [right; right; split; [exact E | reflexivity]|].
    intros [Hall _]. apply (hardened_lookups p rq w Hall).
Qed.

(** ** How soon a crash request can end the process, lines 103-117 *)

Section CrashDelay.
Implicit Types (w : World) (t u : timer) (h : nat) (ts : list timer) (B : Z).

Lemma fire_now t w :
  (Z.max (now w) (due t) ≤ now (fire t w))%Z.
Proof.
  unfold fire, run_callback.
  destruct (every t), (cb t); simpl; try lia; unfold crash_tick; case_decide; simpl; lia.
Qed.

Lemma not_before_at_handle B h (k : timer → timer) ts t :
  NoDup (tid <$> ts) → t ∈ ts → tid t = h →
  Forall (not_before B) ts → not_before B (k t) →
  Forall (not_before B) (at_handle h k <$> ts).
Proof.
  intros Hnd Ht Hid Hall Hk. rewrite Forall_fmap. rewrite Forall_forall in *.
  intros u Hu. simpl. unfold at_handle. case_decide as Hx; [|apply Hall, Hu].
  assert (u = t) by (apply (tid_unique ts); congruence). subst u. exact Hk.
Qed.

Lemma crash_since_fire B t w :
  wf w → proc w = Running → t ∈ timers w → crash_since B w → crash_since B (fire t w).
Proof.
  intros Hwf Hp Ht (Hnow & Hall & _).
  pose proof (fire_now t w) as Hfn.
  destruct Hwf as (Hnd & Hfr & Hok & _).
  assert (Hokt : timer_ok t) by (rewrite Forall_forall in Hok; apply Hok, Ht).
  assert (Hlt : (tid t < next_id w)%nat) by (rewrite Forall_forall in Hfr; apply Hfr, Ht).
  assert (Hnb : not_before B t) by (rewrite Forall_forall in Hall; apply Hall, Ht).
  unfold timer_ok, registered_ok in Hokt. unfold not_before in Hnb.
  split; [lia|].
  destruct (cb t) eqn:Hcb.
  - destruct Hokt as [Hev Hc].
    destruct (decide (1 < countdown)%Z) as [Hmore|Hlast].
    + destruct (fire_tick_more t countdown w Hcb Hev Hmore) as (H1 & _ & _ & _ & H5).
      rewrite H1, H5, Hp. split; [|intros H; apply ended_not_running in H; contradiction].
      apply (not_before_at_handle B (tid t) _ (timers w) t); auto.
      unfold not_before. simpl. lia.
    + destruct (fire_tick_last t countdown w Hcb Hev ltac:(lia) Hlt) as (H1 & _ & _ & _ & H5).
      rewrite H1, H5, Hp. split; [|intros H; apply ended_not_running in H; contradiction].
      apply Forall_app. split; [apply Forall_cleared, Hall|].
      repeat constructor; unfold not_before; simpl; lia.
  - rewrite fire_timeout_timers; [| exact Hokt | congruence | congruence].
    split; [apply Forall_cleared, Hall | intros _; lia].
  - rewrite fire_timeout_timers; [| exact Hokt | congruence | congruence].
    split; [apply Forall_cleared, Hall | intros _; lia].
  - rewrite fire_timeout_timers; [| exact Hokt | congruence | congruence].
    split; [apply Forall_cleared, Hall | intros _; lia].
  - destruct (fire_overload t w Hcb Hokt Hlt) as (H1 & H5).
    rewrite H1, H5, Hp. split; [|intros H; apply ended_not_running in H; contradiction].
    apply Forall_app. split; [|repeat constructor].
    apply (not_before_at_handle B (tid t) _ (timers w) t); auto.
    unfold not_before. simpl. rewrite Hcb. exact I.
  - destruct (fire_release t w Hcb Hokt) as (H1 & H5).
    rewrite H1, H5, Hp. split; [|intros H; apply ended_not_running in H; contradiction].
    apply Forall_cleared, Hall.
Qed.

Lemma crash_since_step B (a : action) w :
  wf w → crash_since B w → crash_since B (step a w).
Proof.
  intros Hwf Hs. unfold step. destruct (proc w) eqn:Hp; try exact Hs.
  destruct Hs as (Hnow & Hall & Hend).
  assert (Hrun : ∀ v, proc v = Running → ended_by_crash (proc v) → (B + 3100 ≤ now v)%Z).
  { intros v Hv H. apply ended_not_running in H. contradiction. }
  destruct a as [e | rq p be | h | ms | sg].
  - destruct e; simpl.
    + unfold health. destruct (negb _); (split; [exact Hnow | split; [exact Hall | exact Hend]]).
    + split; [exact Hnow|]. split; [|apply Hrun; exact Hp].
      simpl. apply Forall_app. split; [exact Hall|].
      repeat constructor. unfold not_before. simpl. lia.
    + split; [exact Hnow | split; [exact Hall | exact Hend]].
    + unfold start_overload. destruct (overloadInterval w);
        [split; [exact Hnow | split; [exact Hall | exact Hend]]|].
      split; [exact Hnow|]. split; [|apply Hrun; exact Hp].
      simpl. apply Forall_app. split; [exact Hall | repeat constructor].
    + unfold stop_overload. destruct (overloadInterval w);
        [|split; [exact Hnow | split; [exact Hall | exact Hend]]].
      split; [exact Hnow|]. split; [|apply Hrun; exact Hp].
      simpl. apply Forall_cleared, Hall.
    + split; [exact Hnow | split; [exact Hall | exact Hend]].
  - unfold forward; simpl. destruct (be _); (split; [exact Hnow | split; [exact Hall | exact Hend]]).
  - destruct (find_timer h (timers w)) as [t|] eqn:E;
      [|split; [exact Hnow | split; [exact Hall | exact Hend]]].
    apply crash_since_fire; [exact Hwf | exact Hp | apply (find_timer_some h), E|].
    split; [exact Hnow | split; [exact Hall | exact Hend]].
  - split; [simpl; lia | split; [exact Hall | apply Hrun; exact Hp]].
  - split; [exact Hnow|]. split; [exact Hall|].
    simpl. intros [H | [H | H]]; discriminate.
Qed.

Lemma crash_since_run B (acts : list action) w :
  wf w → crash_since B w → crash_since B (run acts w).
Proof.
  revert w. induction acts as [|a acts IH]; intros w Hwf Hs; [exact Hs|].
  rewrite run_cons. apply IH; [apply wf_step, Hwf | apply crash_since_step; assumption].
Qed.

Lemma quiet_run_status url (t0 : Z) (acts : list action) :
  crash_requested acts = false →
  (proc (run acts (init_world url t0)) = Running
   ∨ proc (run acts (init_world url t0)) = Exited 0) ∧
  pending (timers (run acts (init_world url t0))) = 0%nat.
Proof.
  intros Hc. split; [|apply run_stays_quiet, Hc].
  destruct (run_causes url t0 acts) as [H | [[H _] | [_ H]]]; [left | right | congruence]; exact H.
Qed.
End CrashDelay.

(** X10.  When a run from the initial state holds no crash request, then a
    crash request, then anything, and the process was ended by one of the
    crash handler's termination timeouts, that happened no sooner than
    3100 ms after the first crash request was handled: three ticks of one
    second and the 100 ms of the exit timeout cannot be cut short by later
    requests, other timers or further crash requests. *)
Theorem crash_not_before (url : option string) (t0 : Z) (acts1 acts2 : list action) :
  crash_requested acts1 = false →
  ended_by_crash (proc (run (acts1 ++ Call Crash :: acts2) (init_world url t0))) →
  (now (run acts1 (init_world url t0)) + 3100
   ≤ now (run (acts1 ++ Call Crash :: acts2) (init_world url t0)))%Z.
Proof.
  intros Hc Hend.
  set (w1 := run acts1 (init_world url t0)) in *.
  assert (Hwf1 : wf w1) by (apply wf_run, wf_init).
  assert (Hrun : run (acts1 ++ Call Crash :: acts2) (init_world url t0)
                 = run (Call Crash :: acts2) w1).
  { unfold run, w1. rewrite foldl_app. reflexivity. }
  rewrite Hrun in *.
  destruct (quiet_run_status url t0 acts1 Hc) as [Hp Hq]. fold w1 in Hp, Hq.
  assert (Hs : crash_since (now w1) w1).
  { split; [lia|]. split.
    - apply Forall_forall. intros t Ht.
      destruct (quiet_timer _ _ Hq Ht) as [Hcb|Hcb]; unfold not_before; rewrite Hcb; exact I.
    - intros H. destruct Hp as [Hp | Hp]; [apply ended_not_running in H; contradiction|].
      destruct H as [H | [H | H]]; rewrite Hp in H; discriminate. }
  destruct (crash_since_run (now w1) (Call Crash :: acts2) w1 Hwf1 Hs) as (_ & _ & H).
  apply H, Hend.
Qed.

(** [crash_not_before] on a run where the countdown runs undisturbed. *)
Lemma crash_not_before_witness :
  crash_requested [Call ToggleHealth; Elapse 250] = false ∧
  ended_by_crash
    (proc (run ([Call ToggleHealth; Elapse 250]
                ++ Call Crash :: [Fire 0; Call Health; Fire 0; Fire 0; Fire 1])
             (init_world None 0))) ∧
  (now (run [Call ToggleHealth; Elapse 250] (init_world None 0)) + 3100
   ≤ now (run ([Call ToggleHealth; Elapse 250]
               ++ Call Crash :: [Fire 0; Call Health; Fire 0; Fire 0; Fire 1])
            (init_world None 0)))%Z.
Proof.
  split; [reflexivity|]. split; [left; reflexivity|].
  apply (crash_not_before None 0 [Call ToggleHealth; Elapse 250]
           [Fire 0; Call Health; Fire 0; Fire 0; Fire 1]);
    [reflexivity | left; reflexivity].
Defined.
